(** * lazy.Func: context-aware lazy initialisation (acycl/lazy)

    A shallow embedding of [lazy.go].  The accessor returned by [Func] is
    run by any number of goroutines; every shared-memory operation of its
    body (an atomic load or store of [d.done], a channel operation on
    [d.sem], a read or write of [d.value] or [d.f]) is one step of a
    program counter named after the source line it executes.  The
    goroutines interleave under an arbitrary scheduler, and [select] picks
    any case that is ready.

    The interleaving semantics is sequentially consistent.  [d.done] is an
    [atomic.Bool], [d.sem] a channel, and the plain fields [d.value] and
    [d.f] are never accessed by two goroutines at once (lemma
    [race_free] below), so this is the semantics Go gives the program.

    Two things are taken from the contracts of what the package is given.
    A call of the producer ends: it returns or it panics.  A context
    reports a non-nil [Err()] from the moment its [Done()] channel is
    closed, [Canceled] or [DeadlineExceeded], and keeps reporting it. *)

From stdpp Require Import base list strings.
From Stdlib Require Import ZArith Lia.

(** ** Go values that do not depend on the type parameter *)

(** The [error] interface.  [nil] is [None] of [option error].  The two
    context errors are package-level values; a value made by [errors.New]
    is a pointer, kept apart from every other one by its address. *)
Inductive error :=
| Canceled
| DeadlineExceeded
| ErrorString (addr : nat) (s : string).

(** A [context.Context]: its identity and the key/value pairs attached by
    [context.WithValue]. *)
Record Context := { ctx_id : nat; ctx_values : list (string * string) }.

Fixpoint assoc {A} (k : nat) (l : list (nat * A)) : option A :=
  match l with
  | [] => None
  | (k', a) :: l' => if Nat.eqb k k' then Some a else assoc k l'
  end.

Fixpoint Value_in (key : string) (l : list (string * string)) : option string :=
  match l with
  | [] => None
  | (k, v) :: l' => if String.eqb key k then Some v else Value_in key l'
  end.

(** [ctx.Value(key)] *)
Definition Value (ctx : Context) (key : string) : option string :=
  Value_in key (ctx_values ctx).

(** Why a context's [Done] channel was closed. *)
Inductive reason := ByCancel | ByDeadline.

Definition reason_err (r : reason) : error :=
  match r with ByCancel => Canceled | ByDeadline => DeadlineExceeded end.

(** Which ready case a [select] takes. *)
Inductive choice := TakeSem | TakeCtx.

(** Operations on the gate and on contexts, as they are observed. *)
Inductive event :=
| EvAcquire (t : nat)    (* d.sem <- struct{}{} *)
| EvRelease (t : nat)    (* <-d.sem *)
| EvCtxDone (t : nat)    (* <-ctx.Done() *)
| EvCtxErr (t : nat)     (* ctx.Err() *)
| EvNilCall (t : nat).   (* d.f(ctx) with d.f == nil *)

Definition event_thread (e : event) : nat :=
  match e with
  | EvAcquire t | EvRelease t | EvCtxDone t | EvCtxErr t | EvNilCall t => t
  end.

(** What the scheduler and the environment can do. *)
Inductive action :=
| Spawn (c : Context)              (* a goroutine calls the accessor with [c] *)
| Cancel (id : nat) (r : reason)   (* context [id] is cancelled or expires *)
| Act (t : nat) (ch : choice).     (* goroutine [t] runs its next operation *)

Section Lazy.

Context {T P : Type}.

(** The zero value of [T]. *)
Variable zero : T.

(** How a call of a Go function of type [func(...) (T, error)] ends. *)
Inductive outcome :=
| Ret (v : T) (err : option error)
| Panic.

(** The wrapped function.  It is opaque to the package: whatever it
    captures is a state of type [P] that only its own calls touch. *)
Definition producer := Context -> P -> P * outcome.

(** The function given to [Func] and the initial state it captures. *)
Variable F : producer.
Variable p0 : P.

(** The struct [d] of [Func]. *)
Record gate := {
  f : option producer;
  done : bool;
  sem : nat;            (* number of elements buffered in the channel, capacity 1 *)
  value : T
}.

(** Where a call of the accessor stands: the source line it executes
    next, with its live local variables. *)
Inductive pc :=
| L25                      (* if d.done.Load() *)
| L26                      (* return d.value, nil *)
| L29                      (* select *)
| L33                      (* return zero, ctx.Err() *)
| L38                      (* if d.done.Load() *)
| L39                      (* return d.value, nil *)
| L42                      (* d.f(ctx): the call *)
| InF (g : producer)       (* d.f(ctx): inside the callee *)
| L43 (v : T) (err : option error)   (* if err != nil *)
| L48 (v : T)              (* d.value = value *)
| L49 (v : T)              (* d.done.Store(true) *)
| L51 (v : T)              (* d.f = nil *)
| L53 (v : T)              (* return d.value, nil *)
| Deferred (r : outcome)   (* the deferred <-d.sem, on the way out *)
| Done (r : outcome).      (* the call has completed *)

Record call := { ctx : Context; at_pc : pc }.

Record state := {
  d : gate;
  threads : list call;
  pstate : P;
  cancelled : list (nat * error);   (* contexts whose Done channel is closed *)
  calls : list (nat * Context);     (* calls of the producer, newest first *)
  results : list outcome;           (* how they ended, newest first *)
  log : list event                  (* newest first *)
}.

Definition init : state :=
  {| d := {| f := Some F; done := false; sem := 0; value := zero |};
     threads := []; pstate := p0; cancelled := []; calls := [];
     results := []; log := [] |}.

(** [ctx.Err()] *)
Definition Err (s : state) (c : Context) : option error :=
  assoc (ctx_id c) (cancelled s).

Definition set_d (g : gate) (s : state) : state :=
  {| d := g; threads := threads s; pstate := pstate s; cancelled := cancelled s;
     calls := calls s; results := results s; log := log s |}.

Definition set_f (x : option producer) (s : state) : state :=
  set_d {| f := x; done := done (d s); sem := sem (d s); value := value (d s) |} s.

Definition set_done (b : bool) (s : state) : state :=
  set_d {| f := f (d s); done := b; sem := sem (d s); value := value (d s) |} s.

Definition set_sem (n : nat) (s : state) : state :=
  set_d {| f := f (d s); done := done (d s); sem := n; value := value (d s) |} s.

Definition set_value (v : T) (s : state) : state :=
  set_d {| f := f (d s); done := done (d s); sem := sem (d s); value := v |} s.

Definition set_threads (l : list call) (s : state) : state :=
  {| d := d s; threads := l; pstate := pstate s; cancelled := cancelled s;
     calls := calls s; results := results s; log := log s |}.

Definition set_cancelled (l : list (nat * error)) (s : state) : state :=
  {| d := d s; threads := threads s; pstate := pstate s; cancelled := l;
     calls := calls s; results := results s; log := log s |}.

Definition emit (e : event) (s : state) : state :=
  {| d := d s; threads := threads s; pstate := pstate s; cancelled := cancelled s;
     calls := calls s; results := results s; log := e :: log s |}.

Definition record_call (t : nat) (c : Context) (s : state) : state :=
  {| d := d s; threads := threads s; pstate := pstate s; cancelled := cancelled s;
     calls := (t, c) :: calls s; results := results s; log := log s |}.

Definition record_result (p : P) (r : outcome) (s : state) : state :=
  {| d := d s; threads := threads s; pstate := p; cancelled := cancelled s;
     calls := calls s; results := r :: results s; log := log s |}.

(** Goroutine [t] moves to [p]. *)
Definition goto (t : nat) (c : Context) (p : pc) (s : state) : state :=
  set_threads (<[t := {| ctx := c; at_pc := p |}]> (threads s)) s.

(** One operation of the accessor's body, run by goroutine [t] whose
    call received [c].  [None]: the goroutine is blocked, or has returned. *)
Definition step_thread (t : nat) (ch : choice) (c : Context) (p : pc) (s : state)
  : option state :=
  match p with
  | L25 => Some (goto t c (if done (d s) then L26 else L29) s)
  | L26 => Some (goto t c (Done (Ret (value (d s)) None)) s)
  | L29 =>
      match ch with
      | TakeSem =>
          if sem (d s) <? 1
          then Some (goto t c L38 (emit (EvAcquire t) (set_sem (S (sem (d s))) s)))
          else None
      | TakeCtx =>
          match Err s c with
          | Some _ => Some (goto t c L33 (emit (EvCtxDone t) s))
          | None => None
          end
      end
  | L33 => Some (goto t c (Done (Ret zero (Err s c))) (emit (EvCtxErr t) s))
  | L38 => Some (goto t c (if done (d s) then L39 else L42) s)
  | L39 => Some (goto t c (Deferred (Ret (value (d s)) None)) s)
  | L42 =>
      match f (d s) with
      | Some g => Some (goto t c (InF g) (record_call t c s))
      | None => Some (goto t c (Deferred Panic) (emit (EvNilCall t) s))
      end
  | InF g =>
      let (p', r) := g c (pstate s) in
      Some (goto t c (match r with
                      | Ret v err => L43 v err
                      | Panic => Deferred Panic
                      end) (record_result p' r s))
  | L43 v err =>
      Some (goto t c (match err with
                      | Some _ => Deferred (Ret zero err)
                      | None => L48 v
                      end) s)
  | L48 v => Some (goto t c (L49 v) (set_value v s))
  | L49 v => Some (goto t c (L51 v) (set_done true s))
  | L51 v => Some (goto t c (L53 v) (set_f None s))
  | L53 v => Some (goto t c (Deferred (Ret (value (d s)) None)) s)
  | Deferred r =>
      if 0 <? sem (d s)
      then Some (goto t c (Done r) (emit (EvRelease t) (set_sem (pred (sem (d s))) s)))
      else None
  | Done _ => None
  end.

(** One step of the whole system. *)
Definition exec (a : action) (s : state) : option state :=
  match a with
  | Spawn c => Some (set_threads (threads s ++ [{| ctx := c; at_pc := L25 |}]) s)
  | Cancel id r =>
      match assoc id (cancelled s) with
      | Some _ => Some s    (* the first cause stays *)
      | None => Some (set_cancelled ((id, reason_err r) :: cancelled s) s)
      end
  | Act t ch =>
      match threads s !! t with
      | Some th => step_thread t ch (ctx th) (at_pc th) s
      | None => None
      end
  end.

Fixpoint run (acts : list action) (s : state) : option state :=
  match acts with
  | [] => Some s
  | a :: acts' =>
      match exec a s with
      | Some s' => run acts' s'
      | None => None
      end
  end.

Inductive reachable : state -> Prop :=
| reach_init : reachable init
| reach_step s a s' : reachable s -> exec a s = Some s' -> reachable s'.

(** ** The invariant of the reachable states *)

(** The lines a goroutine runs while it holds the semaphore. *)
Definition holding (p : pc) : bool :=
  match p with
  | L25 | L26 | L29 | L33 | Done _ => false
  | _ => true
  end.

Definition completed (p : pc) : bool :=
  match p with Done _ => true | _ => false end.

Definition is_success (r : outcome) : bool :=
  match r with Ret _ None => true | _ => false end.

Definition no_success (l : list outcome) : bool :=
  forallb (fun r => negb (is_success r)) l.

(** Between two attempts: every producer call has ended, none well. *)
Definition idle_ok (s : state) : Prop :=
  done (d s) = false ->
  length (calls s) = length (results s) /\ no_success (results s) = true.

(** What a call may return. *)
Definition ret_ok (s : state) (r : outcome) : Prop :=
  match r with
  | Ret v None => done (d s) = true /\ v = value (d s)
  | Ret v (Some _) => v = zero
  | Panic => True
  end.

(** What holds when a goroutine is about to run a given line. *)
Definition pc_ok (s : state) (c : Context) (p : pc) : Prop :=
  match p with
  | L25 | L29 => True
  | L26 | L39 => done (d s) = true
  | L33 => Err s c <> None
  | L38 => idle_ok s
  | L42 =>
      done (d s) = false /\ length (calls s) = length (results s) /\
      no_success (results s) = true
  | InF g =>
      g = F /\ done (d s) = false /\
      length (calls s) = S (length (results s)) /\
      no_success (results s) = true
  | L43 v err =>
      done (d s) = false /\ head (results s) = Some (Ret v err) /\
      length (calls s) = length (results s)
  | L48 v =>
      done (d s) = false /\ head (results s) = Some (Ret v None) /\
      length (calls s) = length (results s)
  | L49 v =>
      done (d s) = false /\ value (d s) = v /\
      head (results s) = Some (Ret v None) /\
      length (calls s) = length (results s)
  | L51 v => done (d s) = true /\ value (d s) = v /\ f (d s) = Some F
  | L53 v => done (d s) = true /\ value (d s) = v /\ f (d s) = None
  | Deferred r => idle_ok s /\ ret_ok s r
  | Done r => ret_ok s r
  end.

(** The fields of [d] that are neither atomic nor a channel, and the
    lines that write or read them. *)
Inductive field := FieldValue | FieldF.

Definition writes (p : pc) : option field :=
  match p with
  | L48 _ => Some FieldValue
  | L51 _ => Some FieldF
  | _ => None
  end.

Definition reads (p : pc) : option field :=
  match p with
  | L26 | L39 | L53 _ => Some FieldValue
  | L42 => Some FieldF
  | _ => None
  end.

(** The lines of the fast path. *)
Definition on_fast_path (p : pc) : bool :=
  match p with L25 | L26 | Done _ => true | _ => false end.

(** [s] seen from an earlier state [s0] in which [done] was set: nothing
    has touched the cache or called the producer, the calls made since
    [s0] are on the fast path, and the trace holds no operation of
    theirs. *)
Definition fresh_ok (s0 s : state) : Prop :=
  done (d s) = true /\ value (d s) = value (d s0) /\
  calls s = calls s0 /\ results s = results s0 /\
  (forall t th, length (threads s0) <= t -> threads s !! t = Some th ->
     at_pc th = L25 \/ at_pc th = L26 \/
     at_pc th = Done (Ret (value (d s0)) None)) /\
  (forall e, In e (log s) -> event_thread e < length (threads s0)).

(** The semaphore counts the goroutines that hold it, and there is at
    most one. *)
Definition mutex (s : state) : Prop :=
  (sem (d s) = 0 /\
   (forall t th, threads s !! t = Some th -> holding (at_pc th) = false) /\
   idle_ok s)
  \/
  (sem (d s) = 1 /\
   exists t th, threads s !! t = Some th /\ holding (at_pc th) = true /\
     forall t' th', threads s !! t' = Some th' ->
                    holding (at_pc th') = true -> t' = t).

Record Inv (s : state) : Prop := {
  inv_f : done (d s) = false -> f (d s) = Some F;
  inv_done : done (d s) = true ->
             head (results s) = Some (Ret (value (d s)) None) /\
             length (calls s) = length (results s);
  inv_results : no_success (tail (results s)) = true;
  inv_cancelled : forall id e, assoc id (cancelled s) = Some e ->
                               e = Canceled \/ e = DeadlineExceeded;
  inv_nilcall : forall t, ~ In (EvNilCall t) (log s);
  inv_log : forall e, In e (log s) -> event_thread e < length (threads s);
  inv_calls : forall t c, In (t, c) (calls s) ->
                          exists p, threads s !! t = Some {| ctx := c; at_pc := p |};
  inv_threads : forall t th, threads s !! t = Some th ->
                             pc_ok s (ctx th) (at_pc th);
  inv_mutex : mutex s
}.

(** ** The paths of a call through the critical section

    Each path is given stage by stage: stage [n] describes the system
    once the goroutine has run [n] operations from the start of the path,
    whatever the other goroutines and the environment did in between. *)

(** Goroutine [t] is about to run line [p] and holds the semaphore; the
    gate, the producer's state and the record of its calls are as given. *)
Definition holds_at (t : nat) (c : Context) (p : pc) (g : gate) (ps : P)
  (cl : list (nat * Context)) (rs : list outcome) (s : state) : Prop :=
  threads s !! t = Some {| ctx := c; at_pc := p |} /\
  d s = g /\ pstate s = ps /\ calls s = cl /\ results s = rs.

(** The call of goroutine [t] has completed with [r]. *)
Definition returned (t : nat) (c : Context) (r : outcome) (s : state) : Prop :=
  threads s !! t = Some {| ctx := c; at_pc := Done r |}.

(** From inside a producer call that is going to fail with [e], leaving
    the producer in state [p'] (lines 42 to 46 and the deferred release). *)
Definition failure_path (s0 : state) (t : nat) (c : Context) (g : producer)
  (p' : P) (v : T) (e : error) (n : nat) (s : state) : Prop :=
  match n with
  | 0 => holds_at t c (InF g) (d s0) (pstate s0) (calls s0) (results s0) s
  | 1 => holds_at t c (L43 v (Some e)) (d s0) p' (calls s0)
           (Ret v (Some e) :: results s0) s
  | 2 => holds_at t c (Deferred (Ret zero (Some e))) (d s0) p' (calls s0)
           (Ret v (Some e) :: results s0) s
  | _ => returned t c (Ret zero (Some e)) s
  end.

(** From inside a producer call that is going to return [v] with a nil
    error, leaving the producer in state [q] (line 42, lines 43 to 53 and
    the deferred release). *)
Definition success_path (s0 : state) (t : nat) (c : Context) (g : producer)
  (q : P) (v : T) (n : nat) (s : state) : Prop :=
  let at_line p gt :=
    holds_at t c p gt q (calls s0) (Ret v None :: results s0) s in
  match n with
  | 0 => holds_at t c (InF g)
           {| f := Some F; done := false; sem := 1; value := value (d s0) |}
           (pstate s0) (calls s0) (results s0) s
  | 1 => at_line (L43 v None)
           {| f := Some F; done := false; sem := 1; value := value (d s0) |}
  | 2 => at_line (L48 v)
           {| f := Some F; done := false; sem := 1; value := value (d s0) |}
  | 3 => at_line (L49 v) {| f := Some F; done := false; sem := 1; value := v |}
  | 4 => at_line (L51 v) {| f := Some F; done := true; sem := 1; value := v |}
  | 5 => at_line (L53 v) {| f := None; done := true; sem := 1; value := v |}
  | 6 => at_line (Deferred (Ret v None))
           {| f := None; done := true; sem := 1; value := v |}
  | _ => returned t c (Ret v None) s /\ In (EvRelease t) (log s) /\
         f (d s) = None /\ done (d s) = true /\ value (d s) = v /\
         calls s = calls s0 /\ results s = Ret v None :: results s0
  end.

(** From the second load of [done], when it finds the flag set (lines 38
    and 39 and the deferred release). *)
Definition recheck_path (s0 : state) (t : nat) (c : Context)
  (n : nat) (s : state) : Prop :=
  let at_line p := holds_at t c p (d s0) (pstate s0) (calls s0) (results s0) s in
  match n with
  | 0 => at_line L38
  | 1 => at_line L39
  | 2 => at_line (Deferred (Ret (value (d s0)) None))
  | _ => returned t c (Ret (value (d s0)) None) s /\ In (EvRelease t) (log s) /\
         done (d s) = true /\ value (d s) = value (d s0) /\
         calls s = calls s0 /\ results s = results s0
  end.

(** After the select has taken the context's case (lines 33 and 34). *)
Definition cancel_path (t : nat) (c : Context) (e : error)
  (n : nat) (s : state) : Prop :=
  match n with
  | 0 => threads s !! t = Some {| ctx := c; at_pc := L33 |} /\ Err s c = Some e
  | _ => returned t c (Ret zero (Some e)) s
  end.

(** The number of operations a goroutine that holds the semaphore still
    has to run, at most, before its call completes. *)
Definition steps_left (p : pc) : nat :=
  match p with
  | L38 => 9 | L42 => 8 | InF _ => 7 | L43 _ _ => 6 | L48 _ => 5
  | L49 _ => 4 | L51 _ => 3 | L53 _ => 2 | L39 => 2 | Deferred _ => 1
  | _ => 0
  end.

End Lazy.

Arguments Ret {T} v err.
Arguments Panic {T}.

(** ** Schedules *)

(** The number of operations goroutine [t] runs in a schedule. *)
Fixpoint own_steps (t : nat) (acts : list action) : nat :=
  match acts with
  | [] => 0
  | Act t' _ :: acts' => (if Nat.eqb t' t then 1 else 0) + own_steps t acts'
  | _ :: acts' => own_steps t acts'
  end.

(** Goroutine [t] runs [n] operations in a row. *)
Definition solo (t : nat) (ch : choice) (n : nat) : list action :=
  repeat (Act t ch) n.

(** The state a schedule leads to ([init] when it cannot be run). *)
Definition after {T P} (zero : T) (F : @producer T P) (p0 : P)
  (acts : list action) : @state T P :=
  match run zero acts (init zero F p0) with
  | Some s => s
  | None => init zero F p0
  end.

(** ** The producers and contexts of the package's tests *)

Module Demo.

Open Scope Z_scope.

(** [context.Background()] *)
Definition background : Context := {| ctx_id := 0; ctx_values := [] |}.

(** [ctx, cancel := context.WithCancel(context.Background())] *)
Definition cancellable : Context := {| ctx_id := 1; ctx_values := [] |}.

(** [context.WithValue(context.Background(), ctxKey{}, "hello")] *)
Definition marked : Context :=
  {| ctx_id := 2; ctx_values := [("ctxKey", "hello")]%string |}.

Definition errTemporary : error := ErrorString 1 "temporary failure".
Definition errFail : error := ErrorString 2 "fail".
Definition errNoValue : error := ErrorString 3 "context value not found".

(** TestFunc_ExecutesOnce: counts its calls and returns 42. *)
Definition always42 : @producer Z nat :=
  fun _ n => (S n, Ret 42 None).

(** TestFunc_ErrorAllowsRetry: fails on its first call only. *)
Definition flaky : @producer Z nat :=
  fun _ n => (S n, match n with
                   | O => Ret 0 (Some errTemporary)
                   | _ => Ret 100 None
                   end).

(** TestFunc_ZeroValueOnError: a value next to the error. *)
Definition failing : @producer Z nat :=
  fun _ n => (S n, Ret 999 (Some errFail)).

(** TestFunc_PropagatesContextToFunction: returns the marker found in
    the context it receives. *)
Definition echo : @producer string nat :=
  fun ctx n => (S n, match Value ctx "ctxKey" with
                     | Some v => Ret v None
                     | None => Ret ""%string (Some errNoValue)
                     end).

(** A producer that panics. *)
Definition panicking : @producer Z nat :=
  fun _ n => (S n, Panic).

(** One call on its own: from the first load of [done] to the return,
    through a producer call that succeeds (11 operations) or fails (7),
    or on the fast path (2). *)
Definition call_success (t : nat) (c : Context) : list action :=
  Spawn c :: solo t TakeSem 11.

Definition call_failure (t : nat) (c : Context) : list action :=
  Spawn c :: solo t TakeSem 7.

Definition call_fast (t : nat) (c : Context) : list action :=
  Spawn c :: solo t TakeSem 2.

(** TestFunc_ConcurrentCalls, with two goroutines: both find [done]
    unset; goroutine 0 takes the semaphore and runs the producer to the
    end while goroutine 1 waits at the select. *)
Definition contended : list action :=
  [Spawn background; Spawn background; Act 0 TakeSem; Act 1 TakeSem]
  ++ solo 0 TakeSem 10.

(** A call whose context was cancelled before it started, with the
    semaphore free: the select takes the semaphore. *)
Definition cancelled_first : list action :=
  [Cancel 1 ByCancel; Spawn cancellable] ++ solo 0 TakeSem 11.

(** TestFunc_ContextCancellation: goroutine 0 is inside the producer,
    goroutine 1 waits with a context that is then cancelled. *)
Definition cancelled_waiting : list action :=
  [Spawn background] ++ solo 0 TakeSem 4 ++
  [Spawn cancellable; Act 1 TakeSem; Cancel 1 ByCancel].

Close Scope Z_scope.

End Demo.

(** ** Further notions: one call seen as a whole, and what a trace counts *)

(** How often goroutine [t] has sent on the semaphore, received from it,
    and called the producer. *)
Fixpoint acquired (t : nat) (l : list event) : nat :=
  match l with
  | [] => 0
  | EvAcquire t' :: l' => (if Nat.eqb t' t then 1 else 0) + acquired t l'
  | _ :: l' => acquired t l'
  end.

Fixpoint released (t : nat) (l : list event) : nat :=
  match l with
  | [] => 0
  | EvRelease t' :: l' => (if Nat.eqb t' t then 1 else 0) + released t l'
  | _ :: l' => released t l'
  end.

Fixpoint called (t : nat) (l : list (nat * Context)) : nat :=
  match l with
  | [] => 0
  | (t', _) :: l' => (if Nat.eqb t' t then 1 else 0) + called t l'
  end.

Section Whole.

Context {T P : Type}.

Variable zero : T.

(** The body of the accessor read as sequential code, for a call that
    nothing interferes with and whose select takes the semaphore: the
    result of the call, the gate and the producer's state it leaves. *)
Definition Get (c : Context) (g : @gate T P) (p : P)
  : @outcome T * @gate T P * P :=
  if done g then (Ret (value g) None, g, p)
  else
    match f g with
    | None => (Panic, g, p)
    | Some h =>
        let (q, r) := h c p in
        match r with
        | Ret v None =>
            (Ret v None,
             {| f := None; done := true; sem := sem g; value := v |}, q)
        | Ret v (Some e) => (Ret zero (Some e), g, q)
        | Panic => (Panic, g, q)
        end
    end.

(** The number of operations that call runs. *)
Definition Get_ops (c : Context) (g : @gate T P) (p : P) : nat :=
  if done g then 2
  else
    match f g with
    | None => 5
    | Some h =>
        match snd (h c p) with
        | Ret _ None => 11
        | Ret _ (Some _) => 7
        | Panic => 6
        end
    end.

(** The number of operations a call still has to run, at most, from a
    given line. *)
Definition ops_left (p : @pc T P) : nat :=
  match p with
  | L25 => 11
  | L29 => 10
  | L26 | L33 => 1
  | _ => steps_left p
  end.

(** The lines before the call at line 42. *)
Definition before_call (p : @pc T P) : bool :=
  match p with
  | L25 | L26 | L29 | L33 | L38 | L39 | L42 => true
  | _ => false
  end.

(** From inside a producer call that is going to panic, leaving the
    producer in state [q] (line 42 and the deferred release). *)
Definition panic_path (s0 : @state T P) (t : nat) (c : Context)
  (g : @producer T P) (q : P) (n : nat) (s : @state T P) : Prop :=
  match n with
  | 0 => holds_at t c (InF g) (d s0) (pstate s0) (calls s0) (results s0) s
  | 1 => holds_at t c (Deferred Panic) (d s0) q (calls s0)
           (Panic :: results s0) s
  | _ => returned t c Panic s
  end.

(** Where the outcome of a completed call comes from: a value with a nil
    error is the newest result of the producer; an error comes with the
    zero value and is the one the call's context reports or one the
    producer returned; a panic is a panic of the producer. *)
Definition origin_ok (s : @state T P) (c : Context) (r : @outcome T) : Prop :=
  match r with
  | Ret v None => head (results s) = Some (Ret v None)
  | Ret v (Some e) =>
      v = zero /\
      (Err s c = Some e \/ exists v', In (Ret v' (Some e)) (results s))
  | Panic => In Panic (results s)
  end.

(** The lines up to the select and the two returns that do not pass it. *)
Definition before_select (p : @pc T P) : bool :=
  match p with L25 | L26 | L29 | L33 => true | _ => false end.

(** What the trace and the record of producer calls hold about a
    goroutine at a given line. *)
Definition trace_ok (s : @state T P) (t : nat) (p : @pc T P) : Prop :=
  (before_call p = true -> called t (calls s) = 0) /\
  called t (calls s) <= 1 /\
  (before_select p = true -> acquired t (log s) = 0) /\
  (holding p = true -> acquired t (log s) = 1 /\ released t (log s) = 0) /\
  (holding p = false ->
   acquired t (log s) = released t (log s) /\ acquired t (log s) <= 1).

(** A producer that never fails. *)
Definition never_fails (F : @producer T P) : Prop :=
  forall c p, is_success (snd (F c p)) = true.

End Whole.

(** * Proofs *)

Section Proofs.

Context {T P : Type} (zero : T) (F : @producer T P) (p0 : P).

Local Abbreviation state := (@state T P).
Local Abbreviation pc := (@pc T P).
Local Abbreviation call := (@call T P).
Local Abbreviation init := (init zero F p0).
Local Abbreviation step_thread := (step_thread zero).
Local Abbreviation exec := (exec zero).
Local Abbreviation run := (run zero).
Local Abbreviation reachable := (reachable zero F p0).
Local Abbreviation pc_ok := (pc_ok zero F).
Local Abbreviation ret_ok := (ret_ok zero).
Local Abbreviation Inv := (Inv zero F).
Local Abbreviation failure_path := (failure_path zero).
Local Abbreviation success_path := (success_path F).
Local Abbreviation cancel_path := (cancel_path zero).

Implicit Types (s : state) (t : nat) (c : Context) (p : pc) (th : call).

(** ** Preservation of the invariant *)

Lemma pc_ok_ext s s1 c p :
  d s1 = d s \/
  (f (d s1) = f (d s) /\ done (d s1) = done (d s) /\ value (d s1) = value (d s)) ->
  calls s1 = calls s -> results s1 = results s -> cancelled s1 = cancelled s ->
  pc_ok s c p -> pc_ok s1 c p.
Proof.
  intros Hd Hc Hr Hx.
  assert (f (d s1) = f (d s) /\ done (d s1) = done (d s) /\ value (d s1) = value (d s))
    as (Hf & Hdn & Hv) by (destruct Hd as [-> | ?]; auto).
  destruct p; unfold pc_ok, ret_ok, idle_ok, Err;
    rewrite ?Hf, ?Hdn, ?Hv, ?Hc, ?Hr, ?Hx; auto.
Qed.

(** A goroutine that does not hold the semaphore relies only on facts
    that stay true: [done] once set, the cached value after it, and a
    context's error once reported. *)
Lemma pc_ok_mono s s1 c p :
  holding p = false ->
  (done (d s) = true -> done (d s1) = true /\ value (d s1) = value (d s)) ->
  (Err s c <> None -> Err s1 c <> None) ->
  pc_ok s c p -> pc_ok s1 c p.
Proof.
  intros Hh Hd He. destruct p; simpl in *; try discriminate; auto.
  - intros H. apply Hd in H. tauto.
  - destruct r as [v [e|]|]; simpl; auto.
    intros [H ->]. apply Hd in H. destruct H as [H1 H2]. auto.
Qed.

Lemma lookup_goto s t c p t' :
  t < length (threads s) ->
  threads (goto t c p s) !! t' =
    if decide (t' = t) then Some {| ctx := c; at_pc := p |} else threads s !! t'.
Proof.
  intros Hlt. unfold goto. simpl. destruct (decide (t' = t)) as [-> | Hne].
  - by apply list_lookup_insert_eq.
  - by apply list_lookup_insert_ne.
Qed.

(** A step of a goroutine that does not hold the semaphore. *)
Lemma Inv_waiter s s1 t c p p' :
  Inv s ->
  threads s !! t = Some {| ctx := c; at_pc := p |} ->
  holding p = false ->
  threads s1 = threads s ->
  f (d s1) = f (d s) -> done (d s1) = done (d s) -> value (d s1) = value (d s) ->
  calls s1 = calls s -> results s1 = results s -> cancelled s1 = cancelled s ->
  (forall e, In e (log s1) ->
             In e (log s) \/ (event_thread e = t /\ forall t', e <> EvNilCall t')) ->
  (holding p' = false /\ sem (d s1) = sem (d s) /\ pc_ok s c p'
   \/ p' = L38 /\ sem (d s) = 0 /\ sem (d s1) = 1) ->
  Inv (goto t c p' s1).
Proof.
  intros HI Ht Hp Hths Hf Hdn Hv Hc Hr Hx Hlog Hcase.
  assert (Hlt : t < length (threads s1))
    by (rewrite Hths; eapply lookup_lt_Some; eauto).
  assert (Hext : forall c0 p0', pc_ok s c0 p0' -> pc_ok s1 c0 p0').
  { intros. eapply pc_ok_ext; eauto. }
  destruct HI as [If Id Ir Ix In' Il Ic It Im].
  split; simpl; rewrite ?Hf, ?Hdn, ?Hv, ?Hc, ?Hr, ?Hx; auto.
  - intros t' Hin. destruct (Hlog _ Hin) as [? | [_ Hne]]; [by eapply In' | by eapply Hne].
  - intros e Hin. rewrite length_insert.
    destruct (Hlog _ Hin) as [? | [-> _]]; [rewrite Hths; auto | done].
  - intros t' c' Hin. destruct (Ic _ _ Hin) as [q Hq].
    change (<[t:=_]> (threads s1)) with (threads (goto t c p' s1)).
    rewrite lookup_goto by done. destruct (decide (t' = t)) as [-> | Hne].
    + rewrite Hq in Ht. inversion Ht; subst. eauto.
    + rewrite Hths. eauto.
  - intros t' th.
    change (<[t:=_]> (threads s1)) with (threads (goto t c p' s1)).
    rewrite lookup_goto by done. destruct (decide (t' = t)) as [-> | Hne].
    + intros [= <-]. simpl. apply (pc_ok_ext s1); auto.
      apply Hext. destruct Hcase as [(_ & _ & H) | (-> & Hs0 & _)]; auto.
      simpl. destruct Im as [(_ & _ & Hi) | (Hs1 & _)]; [auto | lia].
    + rewrite Hths. intros Hth. apply (pc_ok_ext s1); auto. apply Hext. eauto.
  - unfold mutex. simpl.
    change (<[t:=_]> (threads s1)) with (threads (goto t c p' s1)).
    destruct Hcase as [(Hh & Hs & _) | (-> & Hs0 & Hs1)].
    + destruct Im as [(Hz & Hno & Hi) | (Ho & t0 & th0 & Hth0 & Hh0 & Hu)].
      * left. split; [lia|]. split.
        -- intros t' th. rewrite lookup_goto by done.
           destruct (decide (t' = t)); [intros [= <-]; done | rewrite Hths; eauto].
        -- unfold idle_ok. simpl. rewrite Hdn, Hc, Hr. exact Hi.
      * right. split; [lia|]. exists t0, th0.
        assert (t0 <> t).
        { intros ->. rewrite Hth0 in Ht. inversion Ht; subst. simpl in Hh0. congruence. }
        rewrite lookup_goto by done. rewrite decide_False by done.
        rewrite Hths. split; [done|]. split; [done|].
        intros t' th'. rewrite lookup_goto by done.
        destruct (decide (t' = t)); [intros [= <-]; simpl; congruence | rewrite Hths; eauto].
    + destruct Im as [(Hz & Hno & Hi) | (Ho & _)]; [|lia].
      right. split; [done|]. exists t, {| ctx := c; at_pc := L38 |}.
      rewrite lookup_goto by done. rewrite decide_True by done.
      split; [done|]. split; [done|].
      intros t' th'. rewrite lookup_goto by done.
      destruct (decide (t' = t)); [done|]. rewrite Hths. intros Hth Hh.
      apply Hno in Hth. congruence.
Qed.

(** A step of the goroutine that holds the semaphore. *)
Lemma Inv_holder s s1 t c p p' :
  Inv s ->
  threads s !! t = Some {| ctx := c; at_pc := p |} ->
  holding p = true ->
  threads s1 = threads s -> cancelled s1 = cancelled s ->
  (forall e, In e (log s1) ->
             In e (log s) \/ (event_thread e = t /\ forall t', e <> EvNilCall t')) ->
  (forall t' c', In (t', c') (calls s1) -> In (t', c') (calls s) \/ (t' = t /\ c' = c)) ->
  (done (d s1) = false -> f (d s1) = Some F) ->
  (done (d s1) = true ->
   head (results s1) = Some (Ret (value (d s1)) None) /\
   length (calls s1) = length (results s1)) ->
  no_success (tail (results s1)) = true ->
  (done (d s) = true -> done (d s1) = true /\ value (d s1) = value (d s)) ->
  pc_ok s1 c p' ->
  (holding p' = true /\ sem (d s1) = sem (d s)
   \/ holding p' = false /\ sem (d s1) = 0 /\ idle_ok s1) ->
  Inv (goto t c p' s1).
Proof.
  intros HI Ht Hp Hths Hx Hlog Hcalls Hf Hdn Hres Hst Hpc Hcase.
  assert (Hlt : t < length (threads s1))
    by (rewrite Hths; eapply lookup_lt_Some; eauto).
  destruct HI as [If Id Ir Ix In' Il Ic It Im].
  assert (Hsem : sem (d s) = 1 /\
                 forall t' th', threads s !! t' = Some th' -> t' <> t ->
                                holding (at_pc th') = false).
  { destruct Im as [(_ & Hno & _) | (Ho & t0 & th0 & Hth0 & Hh0 & Hu)].
    - apply Hno in Ht. simpl in Ht. congruence.
    - split; [done|]. intros t' th' Hth' Hne.
      destruct (holding (at_pc th')) eqn:Hh; [|done].
      pose proof (Hu _ _ Hth' Hh). pose proof (Hu _ _ Ht Hp). congruence. }
  destruct Hsem as [Hs1 Hothers].
  split; simpl; rewrite ?Hx; auto.
  - intros t' Hin. destruct (Hlog _ Hin) as [? | [_ Hne]]; [by eapply In' | by eapply Hne].
  - intros e Hin. rewrite length_insert.
    destruct (Hlog _ Hin) as [? | [-> _]]; [rewrite Hths; auto | done].
  - intros t' c' Hin.
    change (<[t:=_]> (threads s1)) with (threads (goto t c p' s1)).
    rewrite lookup_goto by done. destruct (decide (t' = t)) as [-> | Hne].
    + destruct (Hcalls _ _ Hin) as [Hin' | [_ ->]]; [|eauto].
      destruct (Ic _ _ Hin') as [q Hq]. rewrite Hq in Ht. inversion Ht; subst. eauto.
    + rewrite Hths. destruct (Hcalls _ _ Hin) as [Hin' | [-> _]]; [eauto | done].
  - intros t' th.
    change (<[t:=_]> (threads s1)) with (threads (goto t c p' s1)).
    rewrite lookup_goto by done. destruct (decide (t' = t)) as [-> | Hne].
    + intros [= <-]. simpl. eapply pc_ok_ext; [left; reflexivity | ..]; eauto.
    + rewrite Hths. intros Hth. apply (pc_ok_ext s1); auto.
      apply (pc_ok_mono s); eauto. unfold Err. by rewrite Hx.
  - unfold mutex. simpl.
    change (<[t:=_]> (threads s1)) with (threads (goto t c p' s1)).
    destruct Hcase as [(Hh & Hs) | (Hh & Hs & Hi)].
    + right. split; [lia|]. exists t, {| ctx := c; at_pc := p' |}.
      rewrite lookup_goto by done. rewrite decide_True by done.
      split; [done|]. split; [done|].
      intros t' th'. rewrite lookup_goto by done.
      destruct (decide (t' = t)); [done|]. rewrite Hths. intros Hth Hh'.
      apply Hothers in Hth; [congruence | done].
    + left. split; [done|]. split; [|exact Hi].
      intros t' th'. rewrite lookup_goto by done.
      destruct (decide (t' = t)); [by intros [= <-]|]. rewrite Hths. eauto.
Qed.

Lemma Inv_init : Inv init.
Proof.
  split; simpl; auto; try done.
  left. split; [done|]. split; [|done]. intros t th Hth. simpl in Hth. by rewrite lookup_nil in Hth.
Qed.

Lemma Inv_spawn s c :
  Inv s -> Inv (set_threads (threads s ++ [{| ctx := c; at_pc := L25 |}]) s).
Proof.
  intros [If Id Ir Ix In' Il Ic It Im]. split; simpl; auto.
  - intros e Hin. apply Il in Hin. rewrite length_app. lia.
  - intros t c' Hin. destruct (Ic _ _ Hin) as [q Hq]. exists q.
    rewrite lookup_app_l; [done | eapply lookup_lt_Some; eauto].
  - intros t th Hth. apply lookup_app_Some in Hth.
    destruct Hth as [Hth | [_ Hth]].
    + eapply pc_ok_ext; [left; reflexivity | ..]; eauto.
    + apply list_lookup_singleton_Some in Hth. destruct Hth as [_ <-]. exact I.
  - unfold mutex. simpl.
    destruct Im as [(Hz & Hno & Hi) | (Ho & t0 & th0 & Hth0 & Hh0 & Hu)].
    + left. split; [done|]. split; [|exact Hi].
      intros t th Hth. apply lookup_app_Some in Hth.
      destruct Hth as [Hth | [_ Hth]]; [eauto|].
      apply list_lookup_singleton_Some in Hth. by destruct Hth as [_ <-].
    + right. split; [done|]. exists t0, th0. split.
      { rewrite lookup_app_l; [done | eapply lookup_lt_Some; eauto]. }
      split; [done|]. intros t th Hth Hh. apply lookup_app_Some in Hth.
      destruct Hth as [Hth | [_ Hth]]; [eauto|].
      apply list_lookup_singleton_Some in Hth. destruct Hth as [_ <-]. done.
Qed.


Lemma Inv_cancel s id r :
  Inv s -> assoc id (cancelled s) = None ->
  Inv (set_cancelled ((id, reason_err r) :: cancelled s) s).
Proof.
  intros [If Id Ir Ix In' Il Ic It Im] Hid. split; simpl; auto.
  - intros k e. destruct (Nat.eqb_spec k id) as [-> | _]; [|eauto].
    intros [= <-]. destruct r; auto.
  - intros t th Hth. pose proof (It _ _ Hth) as Hok.
    destruct (at_pc th) eqn:Hp; simpl in *; auto.
    unfold Err in *. simpl. destruct (Nat.eqb_spec (ctx_id (ctx th)) id); congruence.
Qed.

Lemma head_no_success (l : list (@outcome T)) r :
  head l = Some r -> is_success r = false ->
  no_success (tail l) = true -> no_success l = true.
Proof. destruct l; simpl; [done|]. intros [= ->] -> ->. done. Qed.

Local Ltac side :=
  simpl in *; unfold idle_ok in *; simpl in *;
  try solve [ auto | congruence | lia | tauto
            | intuition (congruence || lia || auto)
            | left; split; [reflexivity | lia]
            | intros ? [<-|?]; [right; split; [reflexivity | discriminate] | left; auto]
            | intros ? ? [[= <- <-] | ?]; auto ].

Lemma Inv_exec s a s' : Inv s -> exec a s = Some s' -> Inv s'.
Proof.
  intros HI Hex. destruct a as [c | id r | t ch]; simpl in Hex.
  - inversion Hex. by apply Inv_spawn.
  - destruct (assoc id (cancelled s)) eqn:Hid; inversion Hex; subst; [done|].
    by apply Inv_cancel.
  - destruct (threads s !! t) as [[c p]|] eqn:Ht; [|done]. simpl in Hex.
    pose proof (inv_threads _ _ _ HI _ _ Ht) as Hok. simpl in Hok.
    pose proof (inv_f _ _ _ HI) as If. pose proof (inv_done _ _ _ HI) as Id.
    pose proof (inv_results _ _ _ HI) as Ir.
    destruct p; simpl in Hex, Hok.
    + (* L25 *)
      destruct (done (d s)) eqn:Hd; inversion Hex; subst;
        eapply Inv_waiter; eauto; side.
    + (* L26 *)
      inversion Hex; subst. eapply Inv_waiter; eauto; side.
    + (* L29 *)
      destruct ch.
      * destruct (sem (d s) <? 1) eqn:Hs; inversion Hex; subst.
        apply Nat.ltb_lt in Hs.
        eapply Inv_waiter; eauto; side.
      * destruct (Err s c) eqn:He; inversion Hex; subst.
        eapply Inv_waiter; eauto; side.
    + (* L33 *)
      inversion Hex; subst. eapply Inv_waiter; eauto; side.
      left. split; [done|]. split; [done|].
      destruct (Err s c); [done | congruence].
    + (* L38 *)
      destruct (done (d s)) eqn:Hd; inversion Hex; subst;
        eapply Inv_holder; eauto; side.
    + (* L39 *)
      inversion Hex; subst. eapply Inv_holder; eauto; side.
    + (* L42 *)
      destruct Hok as (Hd & Hlen & Hns). rewrite (If Hd) in Hex.
      inversion Hex; subst. eapply Inv_holder; eauto; side.
    + (* InF *)
      destruct Hok as (-> & Hd & Hlen & Hns).
      destruct (F c (pstate s)) as [p' r] eqn:HF. inversion Hex; subst.
      destruct r as [v err|]; eapply Inv_holder; eauto; side.
    + (* L43 *)
      destruct Hok as (Hd & Hhd & Hlen).
      inversion Hex; subst. destruct err as [e|]; eapply Inv_holder; eauto; side.
      split; [|done]. intros _. split; [done|]. eapply head_no_success; eauto.
    + (* L48 *)
      destruct Hok as (Hd & Hhd & Hlen).
      inversion Hex; subst. eapply Inv_holder; eauto; side.
    + (* L49 *)
      destruct Hok as (Hd & Hv & Hhd & Hlen).
      inversion Hex; subst. eapply Inv_holder; eauto; side.
    + (* L51 *)
      destruct Hok as (Hd & Hv & Hf).
      inversion Hex; subst. eapply Inv_holder; eauto; side.
    + (* L53 *)
      destruct Hok as (Hd & Hv & Hf).
      inversion Hex; subst. eapply Inv_holder; eauto; side.
    + (* Deferred *)
      destruct Hok as (Hi & Hr).
      destruct (0 <? sem (d s)) eqn:Hs; inversion Hex; subst.
      eapply Inv_holder; eauto; side.
      right. split; [done|]. split; [|exact Hi].
      destruct (inv_mutex _ _ _ HI) as [(_ & Hno & _) | (-> & _)]; [|done].
      apply Hno in Ht. done.
    + (* Done *)
      done.
Qed.

Lemma reachable_Inv s : reachable s -> Inv s.
Proof.
  induction 1 as [| s a s' _ IH Hex]; [apply Inv_init | eapply Inv_exec; eauto].
Qed.

(** ** Runs *)

Lemma run_reachable acts : forall s s',
  reachable s -> run acts s = Some s' -> reachable s'.
Proof.
  induction acts as [|a acts IH]; simpl; intros s s' Hs Hr.
  - by inversion Hr; subst.
  - destruct (exec a s) as [s1|] eqn:Hex; [|done].
    eapply IH; [|exact Hr]. eapply reach_step; eauto.
Qed.


(** Every case of [exec], with the resulting state made explicit. *)
Ltac exec_cases Hex Ht :=
  match type of Hex with
  | _ ?a ?s = Some _ =>
      destruct a as [? | ? ? | ? ?]; simpl in Hex;
      [ | | match type of Hex with
            | context [threads s !! ?x] =>
                destruct (threads s !! x) as [[? []]|] eqn:Ht; simpl in Hex
            end ];
      repeat match type of Hex with
             | context [match ?x with _ => _ end] => destruct x eqn:?
             end;
      try discriminate Hex;
      inversion Hex; subst; clear Hex
  end.

Lemma exec_thread_other s a s' t th :
  exec a s = Some s' -> (forall ch, a <> Act t ch) ->
  threads s !! t = Some th -> threads s' !! t = Some th.
Proof.
  intros Hex Hne Hth. assert (Hlt := lookup_lt_Some _ _ _ Hth).
  exec_cases Hex Ht; simpl; auto; try (by rewrite lookup_app_l);
    (rewrite list_lookup_insert_ne; [done | intros ->; by eapply Hne]).
Qed.


Lemma exec_Err_mono s a s' c e :
  exec a s = Some s' -> Err s c = Some e -> Err s' c = Some e.
Proof.
  intros Hex He. unfold Err in *. exec_cases Hex Ht; simpl; auto.
  destruct (Nat.eqb_spec (ctx_id c) id); congruence.
Qed.

(** ** Mutual exclusion and what it protects *)

Lemma mutex_unique s t1 th1 t2 th2 :
  Inv s ->
  threads s !! t1 = Some th1 -> holding (at_pc th1) = true ->
  threads s !! t2 = Some th2 -> holding (at_pc th2) = true ->
  t1 = t2.
Proof.
  intros HI H1 Hh1 H2 Hh2.
  destruct (inv_mutex _ _ _ HI) as [(_ & Hno & _) | (_ & t0 & th0 & _ & _ & Hu)].
  - apply Hno in H1. congruence.
  - rewrite (Hu _ _ H1 Hh1), (Hu _ _ H2 Hh2). done.
Qed.

Lemma mutex_sem s t th :
  Inv s -> threads s !! t = Some th -> holding (at_pc th) = true -> sem (d s) = 1.
Proof.
  intros HI H1 Hh1.
  destruct (inv_mutex _ _ _ HI) as [(_ & Hno & _) | (Hs & _)]; [|done].
  apply Hno in H1. congruence.
Qed.


(** While a goroutine holds the semaphore, nothing another goroutine or
    the environment does changes the gate, the producer's state or the
    record of its calls. *)
Lemma holder_frame s a s' t th :
  Inv s -> threads s !! t = Some th -> holding (at_pc th) = true ->
  (forall ch, a <> Act t ch) -> exec a s = Some s' ->
  threads s' !! t = Some th /\ d s' = d s /\ pstate s' = pstate s /\
  calls s' = calls s /\ results s' = results s.
Proof.
  intros HI Hth Hh Hne Hex. split; [eapply exec_thread_other; eauto|].
  pose proof (mutex_sem _ _ _ HI Hth Hh) as Hsem.
  exec_cases Hex Ht; simpl; auto;
    try (pose proof (mutex_unique _ _ _ _ _ HI Hth Hh Ht eq_refl) as <-;
         exfalso; by eapply Hne).
  rewrite Hsem in *. discriminate.
Qed.

(** Once [done] is set, no step changes the cached value or calls the
    producer. *)
Lemma done_frame s a s' :
  Inv s -> done (d s) = true -> exec a s = Some s' ->
  done (d s') = true /\ value (d s') = value (d s) /\
  calls s' = calls s /\ results s' = results s /\ pstate s' = pstate s.
Proof.
  intros HI Hd Hex.
  exec_cases Hex Ht; simpl; auto;
    apply (inv_threads _ _ _ HI) in Ht; simpl in Ht;
    intuition congruence.
Qed.

(** ** Calls that start after [done] is set *)

Lemma classic_act (a : action) t :
  (exists ch, a = Act t ch) \/ (forall ch, a <> Act t ch).
Proof.
  destruct a as [c | id r | t' ch]; try (right; discriminate).
  destruct (decide (t' = t)) as [-> | Hne]; [left; eauto | right; congruence].
Qed.

Lemma exec_lookup s a s' t th :
  exec a s = Some s' -> (forall ch, a <> Act t ch) ->
  threads s' !! t = Some th ->
  threads s !! t = Some th \/ (length (threads s) <= t /\ at_pc th = L25).
Proof.
  intros Hex Hne Hth.
  exec_cases Hex Ht; simpl in Hth; auto;
    try (rewrite list_lookup_insert_ne in Hth; [by left | intros ->; by eapply Hne]).
  apply lookup_app_Some in Hth. destruct Hth as [? | [? Hth]]; [by left|].
  apply list_lookup_singleton_Some in Hth. destruct Hth as [_ <-]. by right.
Qed.

(** Only the select, the two returns that follow it and the exit of the
    critical section leave a trace. *)
Lemma exec_log s a s' e :
  exec a s = Some s' -> In e (log s') ->
  In e (log s) \/
  exists ch th, a = Act (event_thread e) ch /\
                threads s !! event_thread e = Some th /\
                on_fast_path (at_pc th) = false.
Proof.
  intros Hex Hin.
  exec_cases Hex Ht; simpl in Hin; auto;
    destruct Hin as [<- | Hin]; auto; right; simpl; eauto.
Qed.

Lemma fast_step s t c p ch :
  done (d s) = true ->
  threads s !! t = Some {| ctx := c; at_pc := p |} ->
  p = L25 \/ p = L26 ->
  exists s', exec (Act t ch) s = Some s' /\
    d s' = d s /\ log s' = log s /\ calls s' = calls s /\
    results s' = results s /\ pstate s' = pstate s /\ cancelled s' = cancelled s /\
    threads s' !! t =
      Some {| ctx := c;
              at_pc := match p with
                       | L25 => L26
                       | _ => Done (Ret (value (d s)) None)
                       end |}.
Proof.
  intros Hd Ht Hp. assert (Hlt := lookup_lt_Some _ _ _ Ht).
  simpl. rewrite Ht. simpl.
  destruct Hp as [-> | ->]; simpl; rewrite ?Hd; eexists; (split; [reflexivity|]);
    simpl; rewrite list_lookup_insert_eq by done; auto 10.
Qed.

Lemma fresh_calls_exec s0 s a s' :
  Inv s -> exec a s = Some s' ->
  fresh_ok s0 s -> fresh_ok s0 s'.
Proof.
  intros HI Hex (Hd & Hv & Hc & Hr & Hth & Hlog).
  destruct (done_frame _ _ _ HI Hd Hex) as (Hd' & Hv' & Hc' & Hr' & _).
  split; [done|]. split; [congruence|]. split; [congruence|]. split; [congruence|].
  split.
  - intros t th Hn Hlk.
    destruct (classic_act a t) as [[ch ->] | Hne].
    + simpl in Hex. destruct (threads s !! t) as [[c p]|] eqn:Ht; [|done].
      assert (Hlt := lookup_lt_Some _ _ _ Ht).
      destruct (Hth _ _ Hn Ht) as [Hp | [Hp | Hp]]; simpl in Hp; subst p;
        simpl in Hex; rewrite ?Hd in Hex; inversion Hex; subst; simpl in Hlk;
        rewrite list_lookup_insert_eq in Hlk by done; inversion Hlk; subst; simpl;
        rewrite ?Hv; auto.
    + destruct (exec_lookup _ _ _ _ _ Hex Hne Hlk) as [? | [_ ?]]; eauto.
  - intros e Hin.
    destruct (exec_log _ _ _ _ Hex Hin) as [? | (ch & th & -> & Ht & Hf)]; [auto|].
    destruct (Nat.lt_ge_cases (event_thread e) (length (threads s0))) as [? | Hge]; [done|].
    destruct (Hth _ _ Hge Ht) as [Hp | [Hp | Hp]]; rewrite Hp in Hf; discriminate.
Qed.

Lemma fresh_calls_run s0 acts : forall s s',
  reachable s -> run acts s = Some s' ->
  fresh_ok s0 s -> fresh_ok s0 s'.
Proof.
  induction acts as [|a acts IH]; simpl; intros s s' Hs Hr Hok.
  - by inversion Hr; subst.
  - destruct (exec a s) as [s1|] eqn:Hex; [|done].
    eapply (IH s1); [eapply reach_step; eauto | done |].
    eapply fresh_calls_exec; eauto using reachable_Inv.
Qed.

Lemma fresh_ok_start s :
  Inv s -> done (d s) = true -> fresh_ok s s.
Proof.
  intros HI Hd. repeat split; auto.
  - intros t th Hn Ht. apply lookup_lt_Some in Ht. lia.
  - apply (inv_log _ _ _ HI).
Qed.

(** ** Following one call under any schedule *)

Lemma path_run (stage : nat -> state -> Prop) t :
  (forall n s ch s', Inv s -> stage n s ->
     exec (Act t ch) s = Some s' -> stage (S n) s') ->
  (forall n s a s', Inv s -> stage n s -> (forall ch, a <> Act t ch) ->
     exec a s = Some s' -> stage n s') ->
  forall acts n s s', reachable s -> stage n s -> run acts s = Some s' ->
    stage (n + own_steps t acts) s'.
Proof.
  intros Hown Hother. induction acts as [|a acts IH]; simpl; intros n s s' Hs Hst Hr.
  - inversion Hr; subst. by rewrite Nat.add_0_r.
  - destruct (exec a s) as [s1|] eqn:Hex; [|done].
    assert (Hs1 : reachable s1) by (eapply reach_step; eauto).
    assert (HI := reachable_Inv _ Hs).
    destruct (classic_act a t) as [[ch ->] | Hne].
    + rewrite Nat.eqb_refl. replace (n + (1 + own_steps t acts)) with (S n + own_steps t acts) by lia.
      eapply IH; eauto.
    + assert (own_steps t (a :: acts) = own_steps t acts) as Ho.
      { destruct a as [| |t' ch]; simpl; auto.
        destruct (Nat.eqb_spec t' t) as [-> | _]; [|done]. exfalso. by eapply Hne. }
      simpl in Ho. rewrite Ho. eapply IH; eauto.
Qed.

Lemma holds_at_other s a s' t c p g ps cl rs :
  Inv s -> holding p = true -> holds_at t c p g ps cl rs s ->
  (forall ch, a <> Act t ch) -> exec a s = Some s' ->
  holds_at t c p g ps cl rs s'.
Proof.
  intros HI Hh (Ht & Hg & Hp & Hc & Hr) Hne Hex.
  destruct (holder_frame _ _ _ _ _ HI Ht Hh Hne Hex) as (? & ? & ? & ? & ?).
  unfold holds_at. repeat split; congruence.
Qed.

Lemma exec_log_mono s a s' e :
  exec a s = Some s' -> In e (log s) -> In e (log s').
Proof. intros Hex Hin. exec_cases Hex Ht; simpl; auto. Qed.

Lemma exec_f_None s a s' :
  exec a s = Some s' -> f (d s) = None -> f (d s') = None.
Proof. intros Hex Hf. exec_cases Hex Ht; simpl; auto; congruence. Qed.

(** A goroutine that holds the semaphore is never blocked; each of its
    operations brings it closer to the end of its call, and it leaves the
    critical section only through the deferred release, which empties
    the channel and completes the call. *)
Lemma holder_step s t c p ch :
  Inv s -> threads s !! t = Some {| ctx := c; at_pc := p |} -> holding p = true ->
  exists s' p', exec (Act t ch) s = Some s' /\
    threads s' !! t = Some {| ctx := c; at_pc := p' |} /\
    steps_left p' < steps_left p /\
    (holding p' = true /\ sem (d s') = 1 /\ log s' = log s
     \/ completed p' = true /\ sem (d s') = 0 /\ log s' = EvRelease t :: log s /\
        exists r, p = Deferred r /\ p' = Done r).
Proof.
  intros HI Ht Hh. assert (Hlt := lookup_lt_Some _ _ _ Ht).
  pose proof (mutex_sem _ _ _ HI Ht Hh) as Hsem.
  pose proof (inv_threads _ _ _ HI _ _ Ht) as Hok. simpl in Hok.
  pose proof (inv_f _ _ _ HI) as If.
  simpl. rewrite Ht. simpl.
  destruct p; simpl in Hh; try discriminate; simpl;
    try (destruct Hok as (Hd & _); rewrite (If Hd));
    try destruct (done (d s));
    try destruct (g c (pstate s)) as [p' [v err|]];
    try destruct err;
    try (rewrite Hsem; simpl);
    eexists _, _; (split; [reflexivity|]); simpl;
    rewrite list_lookup_insert_eq by done; (split; [reflexivity|]); simpl;
    (split; [lia|]); first [left; by auto | right; by eauto 10].
Qed.

Lemma gate_eta (g : @gate T P) :
  g = {| f := f g; done := done g; sem := sem g; value := value g |}.
Proof. by destruct g. Qed.

(** The goroutine's own operation, from a stage where it holds the
    semaphore: unfold it and look the new entry up. *)
Local Ltac own_step s Hst Hex :=
  let Ht := fresh "Ht" in let Hlt := fresh "Hlt" in
  destruct Hst as (Ht & ? & ? & ? & ?);
  assert (Hlt := lookup_lt_Some _ _ _ Ht);
  destruct s as [? ? ? ? ? ? ?]; simpl in *; subst;
  rewrite Ht in Hex; simpl in Hex.

Local Ltac new_stage :=
  unfold holds_at, returned; simpl;
  rewrite list_lookup_insert_eq by done;
  repeat split; auto; try congruence.

Lemma failure_path_run s0 t c g q v e acts s :
  reachable s0 ->
  threads s0 !! t = Some {| ctx := c; at_pc := InF g |} ->
  g c (pstate s0) = (q, Ret v (Some e)) ->
  run acts s0 = Some s ->
  failure_path s0 t c g q v e (own_steps t acts) s.
Proof.
  intros Hs0 Ht0 Hg Hrun.
  apply (path_run (failure_path s0 t c g q v e) t) with (acts := acts) (n := 0) (s := s0);
    auto; [| | by repeat split].
  - intros n s1 ch s2 HI Hst Hex. destruct n as [|[|[|n]]]; simpl in *.
    + own_step s1 Hst Hex. rewrite Hg in Hex. inversion Hex; subst. new_stage.
    + own_step s1 Hst Hex. inversion Hex; subst. new_stage.
    + pose proof Hst as (Ht1 & Hd1 & _).
      pose proof (mutex_sem _ _ _ HI Ht1 eq_refl) as Hsem. rewrite Hd1 in Hsem.
      own_step s1 Hst Hex. rewrite Hsem in Hex. simpl in Hex.
      inversion Hex; subst. new_stage.
    + unfold returned in Hst. rewrite Hst in Hex. discriminate.
  - intros n s1 a s2 HI Hst Hne Hex. destruct n as [|[|[|n]]]; simpl in *;
      try (eapply holds_at_other; by eauto).
    eapply exec_thread_other; eauto.
Qed.

(** The deferred receive: the channel is emptied, nothing else changes. *)
Lemma release_step s t c r ch :
  Inv s -> threads s !! t = Some {| ctx := c; at_pc := Deferred r |} ->
  exists s', exec (Act t ch) s = Some s' /\
    d s' = {| f := f (d s); done := done (d s); sem := 0; value := value (d s) |} /\
    returned t c r s' /\ log s' = EvRelease t :: log s /\
    calls s' = calls s /\ results s' = results s /\ pstate s' = pstate s.
Proof.
  intros HI Ht. assert (Hlt := lookup_lt_Some _ _ _ Ht).
  pose proof (mutex_sem _ _ _ HI Ht eq_refl) as Hsem.
  simpl. rewrite Ht. simpl. rewrite Hsem. simpl.
  eexists. split; [reflexivity|]. unfold returned. simpl.
  by rewrite list_lookup_insert_eq.
Qed.

Lemma success_path_run s0 t c g q v acts s :
  reachable s0 ->
  threads s0 !! t = Some {| ctx := c; at_pc := InF g |} ->
  g c (pstate s0) = (q, Ret v None) ->
  run acts s0 = Some s ->
  success_path s0 t c g q v (own_steps t acts) s.
Proof.
  intros Hs0 Ht0 Hg Hrun.
  assert (HI0 := reachable_Inv _ Hs0).
  apply (path_run (success_path s0 t c g q v) t) with (acts := acts) (n := 0) (s := s0);
    auto.
  - intros n s1 ch s2 HI Hst Hex.
    destruct n as [|[|[|[|[|[|[|n]]]]]]]; simpl in *;
      own_step s1 Hst Hex; rewrite ?Hg in Hex; inversion Hex; subst; by new_stage.
  - intros n s1 a s2 HI Hst Hne Hex.
    destruct n as [|[|[|[|[|[|[|n]]]]]]]; simpl in *;
      try (eapply holds_at_other; by eauto).
    destruct Hst as (Ht & Hl & Hf & Hd & Hv & Hc & Hr).
    destruct (done_frame _ _ _ HI Hd Hex) as (? & ? & ? & ? & _).
    repeat split; try congruence.
    + eapply exec_thread_other; eauto.
    + eapply exec_log_mono; eauto.
    + eapply exec_f_None; eauto.
  - pose proof (inv_threads _ _ _ HI0 _ _ Ht0) as (_ & Hd & _). simpl in Hd.
    simpl. repeat split; auto.
    rewrite (gate_eta (d s0)), Hd, (inv_f _ _ _ HI0 Hd),
      (mutex_sem _ _ _ HI0 Ht0 eq_refl). done.
Qed.

Lemma recheck_path_run s0 t c acts s :
  reachable s0 ->
  threads s0 !! t = Some {| ctx := c; at_pc := L38 |} ->
  done (d s0) = true ->
  run acts s0 = Some s ->
  recheck_path s0 t c (own_steps t acts) s.
Proof.
  intros Hs0 Ht0 Hd0 Hrun.
  apply (path_run (recheck_path s0 t c) t) with (acts := acts) (n := 0) (s := s0);
    auto; [| | by repeat split].
  - intros n s1 ch s2 HI Hst Hex. destruct n as [|[|[|n]]]; simpl in *.
    + own_step s1 Hst Hex. rewrite Hd0 in Hex. inversion Hex; subst. new_stage.
    + own_step s1 Hst Hex. inversion Hex; subst. new_stage.
    + pose proof Hst as (Ht1 & Hd1 & _).
      pose proof (mutex_sem _ _ _ HI Ht1 eq_refl) as Hsem. rewrite Hd1 in Hsem.
      own_step s1 Hst Hex. rewrite Hsem in Hex. simpl in Hex.
      inversion Hex; subst. new_stage.
    + destruct Hst as (Hst & _). unfold returned in Hst. rewrite Hst in Hex. discriminate.
  - intros n s1 a s2 HI Hst Hne Hex. destruct n as [|[|[|n]]]; simpl in *;
      try (eapply holds_at_other; by eauto).
    destruct Hst as (Ht & Hl & Hd & Hv & Hc & Hr).
    destruct (done_frame _ _ _ HI Hd Hex) as (? & ? & ? & ? & _).
    repeat split; try congruence.
    + eapply exec_thread_other; eauto.
    + eapply exec_log_mono; eauto.
Qed.

Lemma cancel_path_run s0 t c e acts s :
  reachable s0 ->
  threads s0 !! t = Some {| ctx := c; at_pc := L33 |} ->
  Err s0 c = Some e ->
  run acts s0 = Some s ->
  cancel_path t c e (own_steps t acts) s.
Proof.
  intros Hs0 Ht0 He0 Hrun.
  apply (path_run (cancel_path t c e) t) with (acts := acts) (n := 0) (s := s0);
    auto; [| | by split].
  - intros n s1 ch s2 HI Hst Hex. destruct n as [|n]; simpl in *.
    + destruct Hst as (Ht & He). assert (Hlt := lookup_lt_Some _ _ _ Ht).
      rewrite Ht in Hex. simpl in Hex. rewrite He in Hex. inversion Hex; subst.
      unfold returned. simpl. by rewrite list_lookup_insert_eq.
    + unfold returned in Hst. rewrite Hst in Hex. discriminate.
  - intros n s1 a s2 HI Hst Hne Hex. destruct n as [|n]; simpl in *.
    + destruct Hst as (Ht & He). split.
      * eapply exec_thread_other; eauto.
      * eapply exec_Err_mono; eauto.
    + eapply exec_thread_other; eauto.
Qed.

(** ** At most one success *)

Lemma no_success_lookup (l : list (@outcome T)) i v :
  no_success l = true -> l !! i = Some (Ret v None) -> False.
Proof.
  revert i. induction l as [|r l IH]; intros i; simpl; [done|].
  intros Hns. apply andb_prop in Hns. destruct Hns as [Hr Hl].
  destruct i as [|i]; simpl.
  - intros [= ->]. discriminate.
  - eauto.
Qed.

(** A success is the newest result, and every call of the producer has
    ended when it is recorded. *)
Lemma success_is_last s k w :
  Inv s -> reverse (results s) !! k = Some (Ret w None) ->
  head (results s) = Some (Ret w None) /\
  length (results s) = S k /\ length (calls s) = S k.
Proof.
  intros HI Hk. apply reverse_lookup_Some in Hk. destruct Hk as [Hk Hlt].
  pose proof (inv_results _ _ _ HI) as Hns.
  destruct (results s) as [|r rest] eqn:Hres; simpl in *; [lia|].
  destruct (length rest - k) as [|j] eqn:Hj.
  2:{ exfalso. eapply no_success_lookup; eauto. }
  simpl in Hk. inversion Hk; subst r. split; [done|].
  assert (Hlen : S (length rest) = S k) by lia. split; [done|].
  rewrite <- Hlen.
  assert (Hno : no_success (results s) = true -> False) by (by rewrite Hres).
  assert (Hl : length (results s) = S (length rest)) by (by rewrite Hres).
  rewrite <- Hl.
  destruct (done (d s)) eqn:Hd; [by apply (inv_done _ _ _ HI)|].
  destruct (inv_mutex _ _ _ HI) as [(_ & _ & Hi) | (_ & t & [c p] & Ht & Hh & _)].
  - destruct (Hi Hd) as [_ ?]. tauto.
  - apply (inv_threads _ _ _ HI) in Ht. simpl in Ht, Hh.
    destruct p; simpl in Ht; try discriminate; unfold idle_ok in Ht;
      intuition congruence.
Qed.

Lemma success_frozen s a s' k w :
  Inv s -> reverse (results s) !! k = Some (Ret w None) ->
  exec a s = Some s' ->
  calls s' = calls s /\ results s' = results s.
Proof.
  intros HI Hk Hex.
  destruct (success_is_last _ _ _ HI Hk) as (Hhd & _).
  assert (Hno : no_success (results s) = true -> False).
  { intros Hns. destruct (results s); [done|]. simpl in Hhd. inversion Hhd; subst.
    simpl in Hns. discriminate. }
  exec_cases Hex Ht; simpl; auto;
    apply (inv_threads _ _ _ HI) in Ht; simpl in Ht; tauto.
Qed.

Lemma success_frozen_run acts : forall s s' k w,
  reachable s -> reverse (results s) !! k = Some (Ret w None) ->
  run acts s = Some s' ->
  calls s' = calls s /\ results s' = results s.
Proof.
  induction acts as [|a acts IH]; simpl; intros s s' k w Hs Hk Hr.
  - by inversion Hr; subst.
  - destruct (exec a s) as [s1|] eqn:Hex; [|done].
    destruct (success_frozen _ _ _ _ _ (reachable_Inv _ Hs) Hk Hex) as [Hc Hres].
    destruct (IH s1 s' k w) as [Hc' Hres']; auto.
    + eapply reach_step; eauto.
    + by rewrite Hres.
    + split; congruence.
Qed.

(** The context a call was made with stays the context of its goroutine. *)
Lemma exec_ctx s a s' t th :
  exec a s = Some s' -> threads s !! t = Some th ->
  exists p, threads s' !! t = Some {| ctx := ctx th; at_pc := p |}.
Proof.
  intros Hex Ht. destruct (classic_act a t) as [[ch ->] | Hne].
  - assert (Hlt := lookup_lt_Some _ _ _ Ht). destruct th as [c p].
    simpl in Hex. rewrite Ht in Hex. simpl in Hex.
    destruct p; simpl in Hex;
      repeat match type of Hex with
             | context [match ?x with _ => _ end] => destruct x eqn:?
             end;
      try discriminate Hex; inversion Hex; subst; simpl;
      rewrite list_lookup_insert_eq by done; eauto.
  - destruct th as [c p]. exists p. eapply exec_thread_other; eauto.
Qed.

Lemma run_ctx acts : forall s s' t th,
  run acts s = Some s' -> threads s !! t = Some th ->
  exists p, threads s' !! t = Some {| ctx := ctx th; at_pc := p |}.
Proof.
  induction acts as [|a acts IH]; simpl; intros s s' t th Hrun Ht.
  - inversion Hrun; subst. destruct th as [c p]. eauto.
  - destruct (exec a s) as [s1|] eqn:Hex; [|done].
    destruct (exec_ctx _ _ _ _ _ Hex Ht) as [p1 Ht1].
    exact (IH _ _ _ _ Hrun Ht1).
Qed.

(** A call made once [done] is set is, under any schedule, on the fast
    path: either it has returned the cached value with a nil error, or
    its next operation can run at once, touches neither the gate nor the
    trace, and takes it one line further towards that return. *)
Lemma later_call_returns s acts s' t th :
  reachable s -> done (d s) = true -> run acts s = Some s' ->
  length (threads s) <= t -> threads s' !! t = Some th ->
  at_pc th = Done (Ret (value (d s)) None) \/
  (at_pc th = L25 \/ at_pc th = L26) /\
  forall ch, exists s1, exec (Act t ch) s' = Some s1 /\
    d s1 = d s' /\ log s1 = log s' /\ calls s1 = calls s' /\
    threads s1 !! t =
      Some {| ctx := ctx th;
              at_pc := match at_pc th with
                       | L25 => L26
                       | _ => Done (Ret (value (d s)) None)
                       end |}.
Proof.
  intros Hs Hd Hrun Hn Ht. assert (HI := reachable_Inv _ Hs).
  destruct (fresh_calls_run s acts s s' Hs Hrun (fresh_ok_start _ HI Hd))
    as (Hd' & Hv' & _ & _ & Hth & _).
  destruct (Hth _ _ Hn Ht) as [Hp | [Hp | Hp]]; [right | right | by left];
    (split; [by auto|]); intros ch; destruct th as [c p]; simpl in Hp; subst p;
    destruct (fast_step s' t c _ ch Hd' Ht ltac:(auto))
      as (s1 & Hex & ? & ? & ? & _ & _ & _ & Ht1);
    exists s1; simpl; rewrite <- ?Hv'; auto.
Qed.

Lemma reachable_after acts : reachable (after zero F p0 acts).
Proof.
  unfold after. destruct (run acts init) as [s|] eqn:Hrun; [|constructor].
  eapply run_reachable; [constructor | exact Hrun].
Qed.

(** * The specification, sentence by sentence *)

(** C1.  Once a call of the accessor has returned a value with a nil
    error (more generally, once [done] is set), the flag stays set, the
    cached value is the one that was returned and never changes, and the
    producer is not called again.  Every call made from then on runs the
    fast path only: it is never blocked, its two operations change
    neither the gate nor the trace of gate and context operations (it
    never sends on the semaphore, never reads [ctx.Done()] or
    [ctx.Err()]), and it returns the cached value with a nil error. *)
Theorem C1_cached_after_success s acts s' :
  reachable s ->
  (done (d s) = true \/ exists t c v, returned t c (Ret v None) s) ->
  run acts s = Some s' ->
  (forall t c v, returned t c (Ret v None) s -> v = value (d s)) /\
  done (d s') = true /\ value (d s') = value (d s) /\
  calls s' = calls s /\ results s' = results s /\
  forall t th, length (threads s) <= t -> threads s' !! t = Some th ->
    (forall e, In e (log s') -> event_thread e <> t) /\
    (at_pc th = Done (Ret (value (d s)) None) \/
     (at_pc th = L25 \/ at_pc th = L26) /\
     forall ch, exists s1, exec (Act t ch) s' = Some s1 /\
       d s1 = d s' /\ log s1 = log s' /\ calls s1 = calls s' /\
       threads s1 !! t =
         Some {| ctx := ctx th;
                 at_pc := match at_pc th with
                          | L25 => L26
                          | _ => Done (Ret (value (d s)) None)
                          end |}).
Proof.
  intros Hs Hdone Hrun. assert (HI := reachable_Inv _ Hs).
  assert (Hret : forall t c v, returned t c (Ret v None) s ->
                               done (d s) = true /\ v = value (d s)).
  { intros t c v Ht. apply (inv_threads _ _ _ HI) in Ht. exact Ht. }
  assert (Hd : done (d s) = true).
  { destruct Hdone as [? | (t & c & v & Ht)]; [done|]. apply Hret in Ht. tauto. }
  destruct (fresh_calls_run s acts s s' Hs Hrun (fresh_ok_start _ HI Hd))
    as (Hd' & Hv' & Hc' & Hr' & Hth & Hlog).
  split; [intros t c v Ht; apply Hret in Ht; tauto|].
  repeat (split; [done|]).
  intros t th Hn Ht. split.
  - intros e Hin Heq. apply Hlog in Hin. lia.
  - destruct (Hth _ _ Hn Ht) as [Hp | [Hp | Hp]]; [right | right | by left];
      (split; [by auto|]); intros ch; destruct th as [c p]; simpl in Hp; subst p;
      destruct (fast_step s' t c _ ch Hd' Ht ltac:(auto))
        as (s1 & Hex & ? & ? & ? & _ & _ & _ & Ht1);
      exists s1; simpl; rewrite <- ?Hv'; auto.
Qed.


(** C3, as the code has it.  A call waits at the select with a context
    that reports an error.  The error is [Canceled] or [DeadlineExceeded].
    While another goroutine holds the semaphore, the context's case is the
    only one the select can take.  Whenever the select takes the
    context's case, that operation and the return that follows change
    neither the gate nor the producer's state nor the record of its calls,
    and the call returns the zero value of [T] with the error the context
    reported, whatever the other goroutines do in between. *)
Theorem C3_context_case s t c e :
  reachable s ->
  threads s !! t = Some {| ctx := c; at_pc := L29 |} ->
  Err s c = Some e ->
  (e = Canceled \/ e = DeadlineExceeded) /\
  (sem (d s) = 1 -> exec (Act t TakeSem) s = None) /\
  exists s1, exec (Act t TakeCtx) s = Some s1 /\
    d s1 = d s /\ pstate s1 = pstate s /\
    calls s1 = calls s /\ results s1 = results s /\
    forall acts s2, run acts s1 = Some s2 ->
      cancel_path t c e (own_steps t acts) s2 /\
      (own_steps t acts = 0 -> forall ch, exists s3,
         exec (Act t ch) s2 = Some s3 /\
         d s3 = d s2 /\ pstate s3 = pstate s2 /\
         calls s3 = calls s2 /\ results s3 = results s2 /\
         returned t c (Ret zero (Some e)) s3).
Proof.
  intros Hs Ht He. assert (HI := reachable_Inv _ Hs).
  assert (Hlt := lookup_lt_Some _ _ _ Ht).
  split; [apply (inv_cancelled _ _ _ HI _ _ He)|].
  split; [intros Hsem; simpl; rewrite Ht; simpl; by rewrite Hsem|].
  assert (Hex : exec (Act t TakeCtx) s = Some (goto t c L33 (emit (EvCtxDone t) s))).
  { simpl. rewrite Ht. simpl. by rewrite He. }
  eexists. split; [exact Hex|]. repeat (split; [done|]).
  intros acts s2 Hrun.
  assert (Hs1 : reachable (goto t c L33 (emit (EvCtxDone t) s)))
    by (eapply reach_step; eauto).
  assert (Hpath : cancel_path t c e (own_steps t acts) s2).
  { eapply cancel_path_run; eauto. simpl. by apply list_lookup_insert_eq. }
  split; [done|]. intros H0 ch. rewrite H0 in Hpath. destruct Hpath as [Ht2 He2].
  assert (Hlt2 := lookup_lt_Some _ _ _ Ht2).
  simpl. rewrite Ht2. simpl. rewrite He2. eexists. split; [reflexivity|].
  unfold returned. simpl. by rewrite list_lookup_insert_eq.
Qed.

(** C4.  The semaphore is taken exactly while one call is inside the
    critical section.  Such a call is never blocked; each operation
    brings it closer to its end; it leaves the section only through the
    deferred receive, whatever the way out (the re-check found [done]
    set, the producer failed, succeeded or panicked), and that receive
    empties the channel as the call completes.  With the channel empty,
    any call waiting at the select can take the semaphore at once. *)
Theorem C4_gate_released s :
  reachable s ->
  (sem (d s) = 0 /\
   (forall t th, threads s !! t = Some th -> holding (at_pc th) = false)
   \/
   sem (d s) = 1 /\
   exists t th, threads s !! t = Some th /\ holding (at_pc th) = true /\
                completed (at_pc th) = false) /\
  (forall t c p ch,
     threads s !! t = Some {| ctx := c; at_pc := p |} -> holding p = true ->
     exists s' p', exec (Act t ch) s = Some s' /\
       threads s' !! t = Some {| ctx := c; at_pc := p' |} /\
       steps_left p' < steps_left p /\
       (holding p' = true /\ sem (d s') = 1 /\ log s' = log s
        \/ completed p' = true /\ sem (d s') = 0 /\
           log s' = EvRelease t :: log s /\
           exists r, p = Deferred r /\ p' = Done r)) /\
  (forall t c,
     threads s !! t = Some {| ctx := c; at_pc := L29 |} -> sem (d s) = 0 ->
     exists s', exec (Act t TakeSem) s = Some s' /\
       threads s' !! t = Some {| ctx := c; at_pc := L38 |} /\ sem (d s') = 1).
Proof.
  intros Hs. assert (HI := reachable_Inv _ Hs). split; [|split].
  - destruct (inv_mutex _ _ _ HI) as [(Hz & Hno & _) | (Ho & t & th & Ht & Hh & _)].
    + by left.
    + right. split; [done|]. exists t, th. split; [done|]. split; [done|].
      by destruct (at_pc th).
  - intros t c p ch Ht Hh. by apply holder_step.
  - intros t c Ht Hsem. assert (Hlt := lookup_lt_Some _ _ _ Ht).
    simpl. rewrite Ht. simpl. rewrite Hsem. simpl.
    eexists. split; [reflexivity|]. simpl. by rewrite list_lookup_insert_eq.
Qed.

(** C5.  A call that found [done] unset and then takes the semaphore is
    at the second load of [done], holding the semaphore.  If the flag is
    set by then, the call goes on to return the cached value with a nil
    error after releasing the semaphore: under any schedule it is never
    blocked, the gate and the record of the producer's calls stay as they
    were while it holds the semaphore (the producer is not called), and
    its third operation is the deferred receive. *)
Theorem C5_recheck_returns_cached s t c s1 acts s' :
  reachable s ->
  threads s !! t = Some {| ctx := c; at_pc := L29 |} ->
  exec (Act t TakeSem) s = Some s1 ->
  done (d s1) = true ->
  run acts s1 = Some s' ->
  threads s1 !! t = Some {| ctx := c; at_pc := L38 |} /\ sem (d s1) = 1 /\
  recheck_path s1 t c (own_steps t acts) s' /\
  (own_steps t acts < 3 -> forall ch, exists s2,
     exec (Act t ch) s' = Some s2 /\
     (own_steps t acts = 2 ->
        sem (d s2) = 0 /\ log s2 = EvRelease t :: log s' /\
        returned t c (Ret (value (d s1)) None) s2 /\
        calls s2 = calls s1 /\ results s2 = results s1)).
Proof.
  intros Hs Ht Hex Hd Hrun. assert (Hlt := lookup_lt_Some _ _ _ Ht).
  assert (Hs1 : reachable s1) by (eapply reach_step; eauto).
  simpl in Hex. rewrite Ht in Hex. simpl in Hex.
  destruct (sem (d s) <? 1) eqn:Hsem; [|done]. apply Nat.ltb_lt in Hsem.
  assert (Ht1 : threads s1 !! t = Some {| ctx := c; at_pc := L38 |}).
  { inversion Hex; subst. simpl. by rewrite list_lookup_insert_eq. }
  assert (Hsem1 : sem (d s1) = 1) by (inversion Hex; subst; simpl; lia).
  pose proof (recheck_path_run _ _ _ _ _ Hs1 Ht1 Hd Hrun) as Hpath.
  assert (HI' := reachable_Inv _ (run_reachable _ _ _ Hs1 Hrun)).
  repeat (split; [done|]). intros Hlt3 ch.
  destruct (own_steps t acts) as [|[|[|n]]]; simpl in Hpath; [| | |lia].
  - destruct Hpath as (Ht' & _).
    destruct (holder_step _ _ _ _ ch HI' Ht' eq_refl) as (s2 & ? & ? & _).
    exists s2. split; [done | lia].
  - destruct Hpath as (Ht' & _).
    destruct (holder_step _ _ _ _ ch HI' Ht' eq_refl) as (s2 & ? & ? & _).
    exists s2. split; [done | lia].
  - destruct Hpath as (Ht' & Hd' & _ & Hc' & Hr').
    destruct (release_step _ _ _ _ ch HI' Ht') as (s2 & ? & Hd2 & ? & ? & ? & ? & _).
    exists s2. split; [done|]. intros _. rewrite Hd2. simpl.
    repeat split; congruence.
Qed.


(** C7, as the code has it.  Once [done] is set, every call of the
    accessor that starts from then on takes the fast path and returns the
    cached value with a nil error: it is never in the critical section,
    no operation on the semaphore or on a context is ever its own (every
    such operation in the trace is of a call that had started before),
    and under any schedule it has returned, or its next operation can run
    at once, leaves the gate and the trace alone and takes it one line
    further towards the return.  The producer is not called again, by any
    call. *)
Theorem C7_later_calls_skip_the_gate s acts s' :
  reachable s ->
  done (d s) = true ->
  run acts s = Some s' ->
  (forall t th, length (threads s) <= t -> threads s' !! t = Some th ->
     on_fast_path (at_pc th) = true /\ holding (at_pc th) = false) /\
  (forall e, In e (log s') -> event_thread e < length (threads s)) /\
  calls s' = calls s /\
  (forall t th, length (threads s) <= t -> threads s' !! t = Some th ->
     at_pc th = Done (Ret (value (d s)) None) \/
     (at_pc th = L25 \/ at_pc th = L26) /\
     forall ch, exists s1, exec (Act t ch) s' = Some s1 /\
       d s1 = d s' /\ log s1 = log s' /\ calls s1 = calls s' /\
       threads s1 !! t =
         Some {| ctx := ctx th;
                 at_pc := match at_pc th with
                          | L25 => L26
                          | _ => Done (Ret (value (d s)) None)
                          end |}).
Proof.
  intros Hs Hd Hrun. assert (HI := reachable_Inv _ Hs).
  destruct (fresh_calls_run s acts s s' Hs Hrun (fresh_ok_start _ HI Hd))
    as (_ & _ & Hc & _ & Hth & Hlog).
  split; [|split; [done|split; [done|]]].
  - intros t th Hn Ht. destruct (Hth _ _ Hn Ht) as [-> | [-> | ->]]; by split.
  - intros t th Hn Ht. eapply later_call_returns; eauto.
Qed.

(** C8.  A call that has returned a non-nil error has returned the zero
    value of [T] next to it, whether the error is the context's or the
    producer's, and whatever value the producer returned with it. *)
Theorem C8_zero_value_on_error s t c v e :
  reachable s ->
  returned t c (Ret v (Some e)) s ->
  v = zero.
Proof.
  intros Hs Ht. apply (inv_threads _ _ _ (reachable_Inv _ Hs)) in Ht. exact Ht.
Qed.

(** C9.  A goroutine calls the accessor with a context [c].  Under any
    schedule, the context of that call remains [c]; every call of the
    producer on record for it was made with [c]; when it is at line 42,
    the call it makes is recorded with [c]; and when it is inside the
    producer, what comes back is the result of the wrapped function
    applied to [c]. *)
Theorem C9_context_propagated s c s1 acts s' :
  reachable s ->
  exec (Spawn c) s = Some s1 ->
  run acts s1 = Some s' ->
  exists p,
    threads s' !! length (threads s) = Some {| ctx := c; at_pc := p |} /\
    (forall c', In (length (threads s), c') (calls s') -> c' = c) /\
    (p = L42 -> forall ch, exists s2,
       exec (Act (length (threads s)) ch) s' = Some s2 /\
       calls s2 = (length (threads s), c) :: calls s' /\
       threads s2 !! length (threads s) = Some {| ctx := c; at_pc := InF F |}) /\
    (forall g, p = InF g -> forall ch, exists s2,
       exec (Act (length (threads s)) ch) s' = Some s2 /\
       g = F /\
       pstate s2 = fst (F c (pstate s')) /\
       results s2 = snd (F c (pstate s')) :: results s').
Proof.
  intros Hs Hex Hrun.
  assert (Hs1 : reachable s1) by (eapply reach_step; eauto).
  assert (Hs' : reachable s') by (eapply run_reachable; eauto).
  assert (HI := reachable_Inv _ Hs').
  assert (Ht1 : threads s1 !! length (threads s) = Some {| ctx := c; at_pc := L25 |}).
  { simpl in Hex. inversion Hex; subst. simpl. by apply list_lookup_middle. }
  destruct (run_ctx _ _ _ _ _ Hrun Ht1) as [p Ht]. simpl in Ht.
  exists p. split; [done|]. split; [|split].
  - intros c' Hin. destruct (inv_calls _ _ _ HI _ _ Hin) as [p' Ht'].
    rewrite Ht in Ht'. by inversion Ht'.
  - intros -> ch. assert (Hlt := lookup_lt_Some _ _ _ Ht).
    pose proof (inv_threads _ _ _ HI _ _ Ht) as (Hd & _). simpl in Hd.
    simpl. rewrite Ht. simpl. rewrite (inv_f _ _ _ HI Hd).
    eexists. split; [reflexivity|]. simpl. by rewrite list_lookup_insert_eq.
  - intros g -> ch.
    pose proof (inv_threads _ _ _ HI _ _ Ht) as (-> & _).
    simpl. rewrite Ht. simpl. destruct (F c (pstate s')) as [q r].
    eexists. split; [reflexivity|]. done.
Qed.

(** C10.  The nil function is never called.  No trace holds a call of
    [d.f] that found it nil; a goroutine about to call [d.f] has found
    [done] unset while holding the semaphore, [done] is still unset and
    [d.f] is the wrapped function; and [d.f] is nil only in states where
    [done] is set. *)
Theorem C10_nil_never_called s :
  reachable s ->
  (forall t, ~ In (EvNilCall t) (log s)) /\
  (forall t c, threads s !! t = Some {| ctx := c; at_pc := L42 |} ->
     done (d s) = false /\ sem (d s) = 1 /\ f (d s) = Some F) /\
  (forall t c g, threads s !! t = Some {| ctx := c; at_pc := InF g |} -> g = F) /\
  (f (d s) = None -> done (d s) = true).
Proof.
  intros Hs. assert (HI := reachable_Inv _ Hs).
  split; [apply (inv_nilcall _ _ _ HI)|]. split; [|split].
  - intros t c Ht. pose proof (inv_threads _ _ _ HI _ _ Ht) as (Hd & _). simpl in Hd.
    split; [done|]. split; [by eapply mutex_sem; eauto | by apply (inv_f _ _ _ HI)].
  - intros t c g Ht. by pose proof (inv_threads _ _ _ HI _ _ Ht) as (-> & _).
  - intros Hf. destruct (done (d s)) eqn:Hd; [done|].
    rewrite (inv_f _ _ _ HI Hd) in Hf. discriminate.
Qed.

(** ** The plain fields are never accessed concurrently *)

(** No goroutine is about to read or write a field that another is about
    to write. *)
Lemma race_free s t1 t2 c1 c2 p1 p2 x :
  reachable s -> t1 <> t2 ->
  threads s !! t1 = Some {| ctx := c1; at_pc := p1 |} ->
  threads s !! t2 = Some {| ctx := c2; at_pc := p2 |} ->
  writes p1 = Some x -> reads p2 <> Some x /\ writes p2 <> Some x.
Proof.
  intros Hs Hne H1 H2 Hw. assert (HI := reachable_Inv _ Hs).
  assert (Hh1 : holding p1 = true) by (by destruct p1).
  pose proof (inv_threads _ _ _ HI _ _ H1) as Hok1.
  pose proof (inv_threads _ _ _ HI _ _ H2) as Hok2.
  destruct (holding p2) eqn:Hh2.
  - exfalso. apply Hne. eapply mutex_unique; eauto.
  - destruct p2; try discriminate; simpl; try (split; congruence).
    destruct p1; try discriminate; simpl in *; [|split; congruence].
    intuition congruence.
Qed.

(** * Beyond the specification: what else the code guarantees *)

Local Abbreviation Get := (Get zero).
Local Abbreviation origin_ok := (origin_ok zero).

(** ** A tool: facts about each call, kept by every step *)

Lemma exec_spawned s a s' t th :
  exec a s = Some s' -> threads s !! t = None -> threads s' !! t = Some th ->
  t = length (threads s) /\ at_pc th = L25 /\
  s' = set_threads (threads s ++ [th]) s.
Proof.
  intros Hex Hnone Hth.
  apply lookup_ge_None in Hnone. assert (Hlt := lookup_lt_Some _ _ _ Hth).
  exec_cases Hex Ht; simpl in *; rewrite ?length_insert in Hlt; try lia.
  apply lookup_app_Some in Hth. destruct Hth as [Hth | [_ Hth]].
  - apply lookup_lt_Some in Hth. lia.
  - apply list_lookup_singleton_Some in Hth. destruct Hth as [Hi <-].
    split; [lia | done].
Qed.

Lemma call_invariant (Q : state -> nat -> call -> Prop) :
  (forall s c, reachable s ->
     Q (set_threads (threads s ++ [{| ctx := c; at_pc := L25 |}]) s)
       (length (threads s)) {| ctx := c; at_pc := L25 |}) ->
  (forall s a s' t th, reachable s -> (forall ch, a <> Act t ch) ->
     exec a s = Some s' -> threads s !! t = Some th -> Q s t th -> Q s' t th) ->
  (forall s t ch s' th th', reachable s -> exec (Act t ch) s = Some s' ->
     threads s !! t = Some th -> threads s' !! t = Some th' ->
     Q s t th -> Q s' t th') ->
  forall s, reachable s -> forall t th, threads s !! t = Some th -> Q s t th.
Proof.
  intros Hspawn Hother Hown s Hs.
  induction Hs as [| s a s' Hs IH Hex]; intros t th Hth.
  - simpl in Hth. by rewrite lookup_nil in Hth.
  - destruct (threads s !! t) as [th0|] eqn:Ht0.
    + destruct (classic_act a t) as [[ch ->] | Hne].
      * eapply Hown; eauto.
      * pose proof (exec_thread_other _ _ _ _ _ Hex Hne Ht0) as Ht1.
        rewrite Ht1 in Hth. inversion Hth; subst. eapply Hother; eauto.
    + destruct (exec_spawned _ _ _ _ _ Hex Ht0 Hth) as (-> & Hp & ->).
      destruct th as [c p]. simpl in Hp. subst p. by apply Hspawn.
Qed.

(** ** One producer call at a time *)

Lemma calls_count s :
  Inv s ->
  (exists t c g, threads s !! t = Some {| ctx := c; at_pc := InF g |}) /\
  length (calls s) = S (length (results s))
  \/
  (forall t c g, threads s !! t <> Some {| ctx := c; at_pc := InF g |}) /\
  length (calls s) = length (results s).
Proof.
  intros HI.
  assert (Hidle : idle_ok s -> length (calls s) = length (results s)).
  { intros Hi. destruct (done (d s)) eqn:Hd;
      [by apply (inv_done _ _ _ HI) | by apply Hi]. }
  destruct (inv_mutex _ _ _ HI) as [(_ & Hno & Hi) | (_ & t & [c p] & Ht & Hh & Hu)].
  - right. split; [|auto]. intros t c g Ht. apply Hno in Ht. discriminate.
  - pose proof (inv_threads _ _ _ HI _ _ Ht) as Hok. simpl in Hok, Hh.
    assert (Honly : forall t' c' g', threads s !! t' = Some {| ctx := c'; at_pc := InF g' |} ->
                                   exists g, p = InF g).
    { intros t' c' g' Ht'. rewrite (Hu _ _ Ht' eq_refl) in Ht'.
      rewrite Ht in Ht'. inversion Ht'; eauto. }
    destruct p; simpl in Hh, Hok; try discriminate;
      try (left; split; [by eauto | tauto]);
      right; (split; [intros t' c' g' Ht'; destruct (Honly _ _ _ Ht') as [? ?]; discriminate|]);
      try tauto; try (apply Hidle; tauto);
      apply (inv_done _ _ _ HI); tauto.
Qed.

(** At most one goroutine is in the critical section, hence at most one
    call of the producer is in flight: the channel never holds more than
    one element, two goroutines past the select and not yet returned are
    the same goroutine, and every producer call on record has ended
    except the one in flight, if there is one. *)
Theorem one_producer_at_a_time s :
  reachable s ->
  sem (d s) <= 1 /\
  (forall t1 t2 th1 th2,
     threads s !! t1 = Some th1 -> threads s !! t2 = Some th2 ->
     holding (at_pc th1) = true -> holding (at_pc th2) = true -> t1 = t2) /\
  (length (calls s) = length (results s) \/
   length (calls s) = S (length (results s))) /\
  (length (calls s) = S (length (results s)) <->
   exists t c g, threads s !! t = Some {| ctx := c; at_pc := InF g |}).
Proof.
  intros Hs. assert (HI := reachable_Inv _ Hs). split; [|split; [|split]].
  - destruct (inv_mutex _ _ _ HI) as [(-> & _) | (-> & _)]; lia.
  - intros t1 t2 th1 th2 H1 H2 Hh1 Hh2. eapply mutex_unique; eauto.
  - destruct (calls_count _ HI) as [[_ ?] | [_ ?]]; auto.
  - destruct (calls_count _ HI) as [[Hex Hlen] | [Hno Hlen]].
    + tauto.
    + split; [lia|]. intros (t & c & g & Ht). by apply Hno in Ht.
Qed.

(** Two goroutines are never about to access the same plain field of [d]
    when one of the accesses is a write: the write of [d.value] at line
    48 meets no read at lines 26, 39 or 53, and the write of [d.f] at line
    51 meets no read at line 42. *)
Theorem plain_fields_never_race s t1 t2 th1 th2 x :
  reachable s -> t1 <> t2 ->
  threads s !! t1 = Some th1 -> threads s !! t2 = Some th2 ->
  writes (at_pc th1) = Some x ->
  reads (at_pc th2) <> Some x /\ writes (at_pc th2) <> Some x.
Proof.
  intros Hs Hne H1 H2 Hw. destruct th1 as [c1 p1], th2 as [c2 p2].
  eapply race_free; eauto.
Qed.

(** All the calls that have returned a value with a nil error have
    returned the same value: the cached one, which is the newest result
    of the producer. *)
Theorem successful_returns_agree s t1 c1 v1 t2 c2 v2 :
  reachable s ->
  returned t1 c1 (Ret v1 None) s ->
  returned t2 c2 (Ret v2 None) s ->
  v1 = v2 /\ value (d s) = v1 /\ head (results s) = Some (Ret v1 None).
Proof.
  intros Hs H1 H2. assert (HI := reachable_Inv _ Hs).
  apply (inv_threads _ _ _ HI) in H1, H2. simpl in H1, H2.
  destruct H1 as [Hd ->], H2 as [_ ->]. split; [done|]. split; [done|].
  by apply (inv_done _ _ _ HI).
Qed.

(** The producer succeeds at most once: among all its calls that have
    ended, only the newest can have returned a nil error. *)
Theorem producer_succeeds_at_most_once s i j v w :
  reachable s ->
  results s !! i = Some (Ret v None) ->
  results s !! j = Some (Ret w None) ->
  i = 0 /\ j = 0 /\ v = w.
Proof.
  intros Hs Hi Hj. pose proof (inv_results _ _ _ (reachable_Inv _ Hs)) as Hns.
  destruct (results s) as [|r rest]; [by rewrite lookup_nil in Hi|]. simpl in Hns.
  destruct i as [|i]; [|exfalso; eapply no_success_lookup; eauto].
  destruct j as [|j]; [|exfalso; eapply no_success_lookup; eauto].
  simpl in Hi, Hj. split; [done|]. split; [done|]. congruence.
Qed.

(** ** Where outcomes come from *)

Lemma exec_results_mono s a s' r :
  exec a s = Some s' -> In r (results s) -> In r (results s').
Proof. intros Hex Hin. exec_cases Hex Ht; simpl; auto. Qed.

(** The own operation of a goroutine, line by line, with its new entry. *)
Ltac own_cases Hex Hth Hth' :=
  let Hlt := fresh "Hlt" in
  assert (Hlt := lookup_lt_Some _ _ _ Hth);
  match type of Hth with _ = Some ?th => destruct th as [? []] end;
  simpl in Hex; rewrite Hth in Hex; simpl in Hex;
  repeat match type of Hex with
         | context [match ?x with _ => _ end] => destruct x eqn:?
         end;
  try discriminate Hex;
  inversion Hex; subst; clear Hex;
  simpl in Hth'; rewrite list_lookup_insert_eq in Hth' by done;
  inversion Hth'; subst; clear Hth'; simpl in *.

Lemma origin_inv s :
  reachable s -> forall t th, threads s !! t = Some th ->
  match at_pc th with
  | L43 v err => In (Ret v err) (results s)
  | Deferred (Ret _ (Some e)) | Done (Ret _ (Some e)) =>
      Err s (ctx th) = Some e \/ exists v', In (Ret v' (Some e)) (results s)
  | Deferred Panic | Done Panic => In Panic (results s)
  | _ => True
  end.
Proof.
  intros Hs.
  apply (call_invariant (fun s t th =>
    match at_pc th with
    | L43 v err => In (Ret v err) (results s)
    | Deferred (Ret _ (Some e)) | Done (Ret _ (Some e)) =>
        Err s (ctx th) = Some e \/ exists v', In (Ret v' (Some e)) (results s)
    | Deferred Panic | Done Panic => In Panic (results s)
    | _ => True
    end)); [| | | exact Hs].
  - intros; exact I.
  - intros s1 a s2 t th Hs1 Hne Hex Hth HQ.
    destruct th as [c p]. simpl in *.
    destruct p as [| | | | | | | | | | | | | [v [e|]|] | [v [e|]|]]; auto;
      try (eapply exec_results_mono; by eauto);
      (destruct HQ as [He | [v' Hin]];
       [left; eapply exec_Err_mono; eauto
       | right; exists v'; eapply exec_results_mono; eauto]).
  - intros s1 t ch s2 th th' Hs1 Hex Hth Hth' HQ.
    assert (HI := reachable_Inv _ Hs1).
    pose proof (inv_threads _ _ _ HI _ _ Hth) as Hok.
    pose proof (inv_f _ _ _ HI) as If.
    own_cases Hex Hth Hth'; auto.
    + destruct (Err s1 ctx0) eqn:He; [|done]. by left.
    + destruct Hok as (Hd & _). apply If in Hd. discriminate.
    + right. eauto.
Qed.

Lemma returned_origin s t c r :
  reachable s -> returned t c r s -> origin_ok s c r.
Proof.
  intros Hs Ht. assert (HI := reachable_Inv _ Hs).
  pose proof (inv_threads _ _ _ HI _ _ Ht) as Hok.
  pose proof (origin_inv _ Hs _ _ Ht) as Hor. simpl in Hok, Hor.
  destruct r as [v [e|]|]; simpl in *; auto.
  destruct Hok as [Hd ->]. by apply (inv_done _ _ _ HI).
Qed.

(** The outcome of a completed call is never made up: a value with a nil
    error is the newest result of the producer; an error comes with the
    zero value and is the error the call's own context reports or an error
    the producer returned; a panic is a panic of the producer. *)
Theorem outcomes_have_an_origin s t c r :
  reachable s ->
  returned t c r s ->
  match r with
  | Ret v None => head (results s) = Some (Ret v None)
  | Ret v (Some e) =>
      v = zero /\
      (Err s c = Some e \/ exists v', In (Ret v' (Some e)) (results s))
  | Panic => In Panic (results s)
  end.
Proof. intros Hs Ht. exact (returned_origin s t c r Hs Ht). Qed.

(** ** What each call does, counted on the trace *)

Lemma called_zero t (l : list (nat * Context)) :
  (forall c, ~ In (t, c) l) -> called t l = 0.
Proof.
  induction l as [|[t' c'] l IH]; simpl; intros Hno; [done|].
  destruct (Nat.eqb_spec t' t) as [-> | _].
  - exfalso. eapply Hno. left. reflexivity.
  - apply IH. intros c Hin. eapply Hno. right. exact Hin.
Qed.

Lemma trace_zero t (l : list event) :
  (forall e, In e l -> event_thread e <> t) ->
  acquired t l = 0 /\ released t l = 0.
Proof.
  induction l as [|e l IH]; simpl; intros Hno; [done|].
  destruct IH as [Ha Hr]; [intros e' Hin; apply Hno; by right|].
  assert (He : event_thread e <> t) by (apply Hno; by left).
  destruct e as [t'|t'|t'|t'|t']; simpl in He; auto;
    destruct (Nat.eqb_spec t' t); simpl; auto; congruence.
Qed.

Lemma exec_counts_other s a s' t :
  exec a s = Some s' -> (forall ch, a <> Act t ch) ->
  called t (calls s') = called t (calls s) /\
  acquired t (log s') = acquired t (log s) /\
  released t (log s') = released t (log s).
Proof.
  intros Hex Hne.
  assert (Hneq : forall t' ch, a = Act t' ch -> Nat.eqb t' t = false).
  { intros t' ch ->. apply Nat.eqb_neq. intros ->. by eapply Hne. }
  exec_cases Hex Ht; simpl; auto;
    rewrite (Hneq _ _ eq_refl); auto.
Qed.

Lemma trace_inv s :
  reachable s -> forall t th, threads s !! t = Some th ->
  trace_ok s t (at_pc th).
Proof.
  intros Hs.
  apply (call_invariant (fun s t th => trace_ok s t (at_pc th))); [| | | exact Hs].
  - intros s1 c Hs1. assert (HI := reachable_Inv _ Hs1).
    assert (Hc : called (length (threads s1)) (calls s1) = 0).
    { apply called_zero. intros c' Hin. apply (inv_calls _ _ _ HI) in Hin.
      destruct Hin as [q Hq]. apply lookup_lt_Some in Hq. lia. }
    destruct (trace_zero (length (threads s1)) (log s1)) as [Ha Hr].
    { intros e Hin. apply (inv_log _ _ _ HI) in Hin. lia. }
    unfold trace_ok. simpl. rewrite Hc, Ha, Hr. repeat split; auto; discriminate.
  - intros s1 a s2 t th Hs1 Hne Hex Hth HQ.
    destruct (exec_counts_other _ _ _ _ Hex Hne) as (Hc & Ha & Hr).
    unfold trace_ok in *. by rewrite Hc, Ha, Hr.
  - intros s1 t ch s2 th th' Hs1 Hex Hth Hth' HQ. unfold trace_ok in *.
    own_cases Hex Hth Hth'; rewrite ?Nat.eqb_refl;
      destruct HQ as (H1 & H2 & H3 & H4 & H5);
      repeat match goal with
             | H : ?x = ?x -> _ |- _ => specialize (H eq_refl)
             | H : false = true -> _ |- _ => clear H
             | H : true = false -> _ |- _ => clear H
             | H : _ /\ _ |- _ => destruct H
             end;
      repeat split; intros; try discriminate; lia.
Qed.

(** A call of the accessor calls the producer at most once, and not at
    all before it has found [done] unset twice: there is no retry inside
    a call. *)
Theorem producer_called_once_per_call s t th :
  reachable s ->
  threads s !! t = Some th ->
  called t (calls s) <= 1 /\
  (before_call (at_pc th) = true -> called t (calls s) = 0).
Proof.
  intros Hs Ht. destruct (trace_inv _ Hs _ _ Ht) as (H1 & H2 & _). auto.
Qed.

(** A call sends on the semaphore at most once; while it is in the
    critical section it has sent and not yet received; once it has
    completed it has received as often as it has sent; and a call still
    before or at the select, or back from it through the context's case
    or the fast path, has never sent. *)
Theorem semaphore_balanced_per_call s t th :
  reachable s ->
  threads s !! t = Some th ->
  acquired t (log s) <= 1 /\
  (holding (at_pc th) = true ->
   acquired t (log s) = 1 /\ released t (log s) = 0) /\
  (completed (at_pc th) = true -> released t (log s) = acquired t (log s)) /\
  (before_select (at_pc th) = true -> acquired t (log s) = 0).
Proof.
  intros Hs Ht. destruct (trace_inv _ Hs _ _ Ht) as (_ & _ & H3 & H4 & H5).
  destruct (holding (at_pc th)) eqn:Hh.
  - destruct (H4 eq_refl) as [Ha Hr]. repeat split; auto; try lia.
    intros Hc. by destruct (at_pc th).
  - destruct (H5 eq_refl) as [Ha Hr]. repeat split; auto; try discriminate; lia.
Qed.

(** ** A producer that never fails runs once *)

Lemma all_results_succeed s :
  never_fails F -> reachable s ->
  forall r, In r (results s) -> is_success r = true.
Proof.
  intros HF Hs. induction Hs as [| s a s' Hs IH Hex]; [by simpl|].
  assert (HI := reachable_Inv _ Hs).
  exec_cases Hex Ht; simpl; auto;
    (intros r' [<- | Hin]; [|by auto]);
    pose proof (inv_threads _ _ _ HI _ _ Ht) as (-> & _);
    match goal with
    | H : F ?c ?q = _ |- _ => pose proof (HF c q) as Hok; rewrite H in Hok
    end;
    exact Hok.
Qed.

(** With a producer that never fails, however many goroutines call the
    accessor and however they interleave, the producer is called at most
    once, and a call that has completed has returned either the one
    value the producer made, with a nil error, or the zero value with the
    error of its own context. *)
Theorem never_failing_producer_runs_once s :
  never_fails F ->
  reachable s ->
  length (calls s) <= 1 /\
  forall t c r, returned t c r s ->
    (exists v, r = Ret v None /\ results s = [Ret v None] /\ length (calls s) = 1) \/
    (exists e, r = Ret zero (Some e) /\ Err s c = Some e).
Proof.
  intros HF Hs. assert (HI := reachable_Inv _ Hs).
  pose proof (all_results_succeed _ HF Hs) as Hall.
  assert (Hres : results s = [] \/ exists v, results s = [Ret v None]).
  { pose proof (inv_results _ _ _ HI) as Hns.
    destruct (results s) as [|r [|r' rest]]; [by left | |].
    - right. specialize (Hall r (or_introl eq_refl)).
      destruct r as [v [e|]|]; try discriminate. eauto.
    - specialize (Hall r' (or_intror (or_introl eq_refl))).
      simpl in Hns. rewrite Hall in Hns. discriminate. }
  assert (Hone : forall v, results s = [Ret v None] -> length (calls s) = 1).
  { intros v Hv. apply (success_is_last s 0 v HI). by rewrite Hv. }
  split.
  - destruct Hres as [Hr | [v Hr]]; [|by rewrite (Hone _ Hr)].
    destruct (calls_count _ HI) as [[_ Hl] | [_ Hl]]; rewrite Hl, Hr; simpl; lia.
  - intros t c r Ht. pose proof (returned_origin _ _ _ _ Hs Ht) as Hor.
    destruct r as [v [e|]|]; simpl in Hor.
    + right. exists e. destruct Hor as [-> [He | [v' Hin]]]; [done|].
      apply Hall in Hin. discriminate.
    + left. exists v. split; [done|].
      destruct Hres as [Hr | [w Hr]]; rewrite Hr in Hor; [done|].
      simpl in Hor. inversion Hor; subst. split; [done | by eapply Hone].
    + apply Hall in Hor. discriminate.
Qed.

(** ** No call is ever stuck for good *)

Lemma run_app acts1 : forall acts2 s s1 s2,
  run acts1 s = Some s1 -> run acts2 s1 = Some s2 ->
  run (acts1 ++ acts2) s = Some s2.
Proof.
  induction acts1 as [|a acts1 IH]; simpl; intros acts2 s s1 s2 H1 H2.
  - by inversion H1; subst.
  - destruct (exec a s) as [s'|]; [eauto | done].
Qed.

Lemma run_cons a acts s s1 :
  exec a s = Some s1 -> run (a :: acts) s = run acts s1.
Proof. intros Hex. simpl. by rewrite Hex. Qed.

Lemma exec_act_others s t ch s' t' :
  exec (Act t ch) s = Some s' -> t' <> t ->
  threads s' !! t' = threads s !! t'.
Proof.
  intros Hex Hne. simpl in Hex.
  destruct (threads s !! t) as [[c []]|]; simpl in Hex;
    repeat match type of Hex with
           | context [match ?x with _ => _ end] => destruct x eqn:?
           end;
    try discriminate Hex; inversion Hex; subst; simpl;
    by rewrite list_lookup_insert_ne.
Qed.

(** Left to run, a call that is in the critical section, or that finds
    the channel empty, takes one more step towards its end. *)
Lemma own_progress s t c p :
  Inv s -> threads s !! t = Some {| ctx := c; at_pc := p |} ->
  completed p = false -> holding p = true \/ sem (d s) = 0 ->
  exists s' p', exec (Act t TakeSem) s = Some s' /\
    threads s' !! t = Some {| ctx := c; at_pc := p' |} /\
    ops_left p' < ops_left p /\
    (holding p' = true \/ sem (d s') = 0).
Proof.
  intros HI Ht Hc Hcase. assert (Hlt := lookup_lt_Some _ _ _ Ht).
  destruct (holding p) eqn:Hh.
  - destruct (holder_step _ _ _ _ TakeSem HI Ht Hh) as (s' & p' & Hex & Ht' & Hm & Hor).
    exists s', p'. split; [done|]. split; [done|]. split.
    + destruct Hor as [(Hh' & _) | (Hc' & _)];
        destruct p; try discriminate; destruct p'; try discriminate; simpl in *; lia.
    + destruct Hor as [(Hh' & _) | (_ & Hs & _)]; auto.
  - destruct Hcase as [? | Hsem]; [done|].
    simpl. rewrite Ht. simpl.
    destruct p; try discriminate; simpl; rewrite ?Hsem; simpl;
      eexists _, _; (split; [reflexivity|]); simpl;
      rewrite list_lookup_insert_eq by done; (split; [reflexivity|]);
      try destruct (done (d s)); simpl; (split; [lia | auto]).
Qed.

Lemma solo_completes n : forall s t c p,
  reachable s -> threads s !! t = Some {| ctx := c; at_pc := p |} ->
  ops_left p <= n -> holding p = true \/ sem (d s) = 0 ->
  exists k s' r, k <= n /\ run (solo t TakeSem k) s = Some s' /\
    returned t c r s' /\ sem (d s') = 0 /\
    forall t', t' <> t -> threads s' !! t' = threads s !! t'.
Proof.
  induction n as [|n IH]; intros s t c p Hs Ht Hn Hcase.
  - destruct p; simpl in Hn; try lia.
    exists 0, s, r. destruct Hcase as [? | ?]; [done|]. by repeat split.
  - destruct (completed p) eqn:Hc.
    + destruct p; try discriminate.
      exists 0, s, r. destruct Hcase as [? | ?]; [done|]. repeat split; auto; lia.
    + destruct (own_progress _ _ _ _ (reachable_Inv _ Hs) Ht Hc Hcase)
        as (s1 & p1 & Hex & Ht1 & Hm & Hcase1).
      destruct (IH s1 t c p1) as (k & s' & r & Hk & Hrun & Hret & Hsem & Hoth); auto.
      { eapply reach_step; eauto. }
      { lia. }
      exists (S k), s', r. split; [lia|]. split.
      { change (solo t TakeSem (S k)) with (Act t TakeSem :: solo t TakeSem k).
        by rewrite (run_cons _ _ _ _ Hex). }
      split; [done|]. split; [done|].
      intros t' Hne. rewrite (Hoth _ Hne). eapply exec_act_others; eauto.
Qed.

(** From every reachable state every call can be brought to its end: it
    is enough to let the goroutine that holds the semaphore, if there is
    one, run to the end of its call (9 operations at most) and then to
    let the call itself run (11 operations at most). *)
Theorem every_call_can_complete s t th :
  reachable s ->
  threads s !! t = Some th ->
  exists h k1 k2 s' r,
    k1 <= 9 /\ k2 <= 11 /\
    run (solo h TakeSem k1 ++ solo t TakeSem k2) s = Some s' /\
    returned t (ctx th) r s'.
Proof.
  intros Hs Ht. destruct th as [c p]. simpl.
  assert (HI := reachable_Inv _ Hs).
  assert (Hb : ops_left p <= 11) by (destruct p; simpl; lia).
  assert (Hsolo : forall s1, reachable s1 ->
            threads s1 !! t = Some {| ctx := c; at_pc := p |} ->
            holding p = true \/ sem (d s1) = 0 ->
            exists k2 s' r, k2 <= 11 /\ run (solo t TakeSem k2) s1 = Some s' /\
                            returned t c r s').
  { intros s1 Hs1 Ht1 Hcase.
    destruct (solo_completes 11 s1 t c p Hs1 Ht1 Hb Hcase) as (k & s' & r & ? & ? & ? & _).
    eauto 10. }
  destruct (inv_mutex _ _ _ HI) as [(Hz & _) | (_ & h & [ch ph] & Hh & Hhold & _)].
  - destruct (Hsolo s Hs Ht (or_intror Hz)) as (k2 & s' & r & ? & ? & ?).
    exists t, 0, k2, s', r. repeat split; auto; lia.
  - destruct (decide (h = t)) as [-> | Hne].
    + rewrite Hh in Ht. inversion Ht; subst.
      destruct (Hsolo s Hs Hh (or_introl Hhold)) as (k2 & s' & r & ? & ? & ?).
      exists t, 0, k2, s', r. repeat split; auto; lia.
    + simpl in Hhold.
      assert (Hb9 : ops_left ph <= 9) by (destruct ph; simpl in *; try discriminate; lia).
      destruct (solo_completes 9 s h ch ph Hs Hh Hb9 (or_introl Hhold))
        as (k1 & s1 & r1 & ? & Hrun1 & _ & Hsem1 & Hoth).
      assert (Hs1 : reachable s1) by (eapply run_reachable; eauto).
      assert (Ht1 : threads s1 !! t = Some {| ctx := c; at_pc := p |}).
      { rewrite Hoth by auto. exact Ht. }
      destruct (Hsolo s1 Hs1 Ht1 (or_intror Hsem1)) as (k2 & s' & r & ? & Hrun2 & ?).
      exists h, k1, k2, s', r. repeat split; auto. eapply run_app; eauto.
Qed.

(** A call is blocked in one situation only: at the select, while another
    goroutine holds the semaphore and the call's own context is not done.
    Everywhere else its next operation can run, whatever the others do. *)
Theorem blocks_only_at_select s t c p :
  reachable s ->
  threads s !! t = Some {| ctx := c; at_pc := p |} ->
  ((forall ch, exec (Act t ch) s = None) <->
   completed p = true \/ (p = L29 /\ sem (d s) = 1 /\ Err s c = None)).
Proof.
  intros Hs Ht. assert (HI := reachable_Inv _ Hs). split.
  - intros Hblocked.
    destruct (completed p) eqn:Hc; [by left | right].
    destruct (holding p) eqn:Hh.
    { destruct (holder_step _ _ _ _ TakeSem HI Ht Hh) as (s' & p' & Hex & _).
      rewrite Hblocked in Hex. discriminate. }
    pose proof (Hblocked TakeSem) as H1. pose proof (Hblocked TakeCtx) as H2.
    simpl in H1, H2. rewrite Ht in H1, H2. simpl in H1, H2.
    destruct p; try discriminate. split; [done|]. simpl in H1, H2.
    destruct (sem (d s) <? 1) eqn:Hsem; [discriminate|].
    apply Nat.ltb_ge in Hsem.
    destruct (Err s c); [discriminate|]. split; [|done].
    destruct (inv_mutex _ _ _ HI) as [(? & _) | (? & _)]; lia.
  - intros [Hc | (-> & Hsem & He)] ch; simpl; rewrite Ht; simpl.
    + by destruct p.
    + rewrite Hsem, He. by destruct ch.
Qed.

(** ** A panic of the producer *)

Lemma panic_path_run s0 t c g q acts s :
  reachable s0 ->
  threads s0 !! t = Some {| ctx := c; at_pc := InF g |} ->
  g c (pstate s0) = (q, Panic) ->
  run acts s0 = Some s ->
  panic_path s0 t c g q (own_steps t acts) s.
Proof.
  intros Hs0 Ht0 Hg Hrun.
  apply (path_run (panic_path s0 t c g q) t) with (acts := acts) (n := 0) (s := s0);
    auto; [| | by repeat split].
  - intros n s1 ch s2 HI Hst Hex. destruct n as [|[|n]]; simpl in *.
    + own_step s1 Hst Hex. rewrite Hg in Hex. inversion Hex; subst. new_stage.
    + pose proof Hst as (Ht1 & Hd1 & _).
      pose proof (mutex_sem _ _ _ HI Ht1 eq_refl) as Hsem. rewrite Hd1 in Hsem.
      own_step s1 Hst Hex. rewrite Hsem in Hex. simpl in Hex.
      inversion Hex; subst. new_stage.
    + unfold returned in Hst. rewrite Hst in Hex. discriminate.
  - intros n s1 a s2 HI Hst Hne Hex. destruct n as [|[|n]]; simpl in *;
      try (eapply holds_at_other; by eauto).
    eapply exec_thread_other; eauto.
Qed.

(** When the producer panics, the deferred receive still runs: under any
    schedule of the other goroutines the gate stays as it was when the
    producer was called, the second operation of the caller from there
    empties the channel, [done] is still unset and [d.f] in place, and
    the panic goes on to the caller of the accessor.  A later call finds
    the gate as if this one had never been made. *)
Theorem producer_panic_releases s t c g q acts s' :
  reachable s ->
  threads s !! t = Some {| ctx := c; at_pc := InF g |} ->
  g c (pstate s) = (q, Panic) ->
  run acts s = Some s' ->
  panic_path s t c g q (own_steps t acts) s' /\
  (own_steps t acts < 2 -> forall ch, exists s1,
     exec (Act t ch) s' = Some s1 /\
     (own_steps t acts = 1 ->
        d s1 = {| f := Some F; done := false; sem := 0; value := value (d s) |} /\
        d s1 = {| f := f (d s); done := done (d s); sem := 0; value := value (d s) |} /\
        returned t c Panic s1 /\ log s1 = EvRelease t :: log s')).
Proof.
  intros Hs Ht Hg Hrun. assert (HI := reachable_Inv _ Hs).
  assert (Hd : done (d s) = false).
  { apply (inv_threads _ _ _ HI) in Ht. simpl in Ht. tauto. }
  pose proof (panic_path_run _ _ _ _ _ _ _ Hs Ht Hg Hrun) as Hpath.
  assert (HI' := reachable_Inv _ (run_reachable _ _ _ Hs Hrun)).
  split; [done|]. intros Hlt ch.
  destruct (own_steps t acts) as [|[|n]]; simpl in Hpath; [| |lia].
  - destruct Hpath as (Ht' & _).
    destruct (holder_step _ _ _ _ ch HI' Ht' eq_refl) as (s1 & ? & ? & _).
    exists s1. split; [done | lia].
  - destruct Hpath as (Ht' & Hd' & _).
    destruct (release_step _ _ _ _ ch HI' Ht') as (s1 & ? & Hd1 & ? & ? & _).
    exists s1. split; [done|]. intros _.
    rewrite Hd1, Hd', Hd, (inv_f _ _ _ HI Hd). auto.
Qed.

(** ** One call on its own *)

Lemma lookup_last {A} (l : list A) x : (l ++ [x]) !! length l = Some x.
Proof. by apply list_lookup_middle. Qed.

Lemma insert_last {A} (l : list A) x y : <[length l := y]> (l ++ [x]) = l ++ [y].
Proof.
  rewrite insert_app_r_alt by lia. by rewrite Nat.sub_diag.
Qed.

Lemma solo_step s ths c p n s1 :
  threads s = ths ++ [{| ctx := c; at_pc := p |}] ->
  step_thread (length ths) TakeSem c p s = Some s1 ->
  run (solo (length ths) TakeSem (S n)) s = run (solo (length ths) TakeSem n) s1.
Proof.
  intros Hths Hstep.
  change (solo (length ths) TakeSem (S n))
    with (Act (length ths) TakeSem :: solo (length ths) TakeSem n).
  apply run_cons. simpl. rewrite Hths, lookup_last. exact Hstep.
Qed.

(** Run the next operation of the goroutine spawned last. *)
Local Ltac flatten :=
  cbv -[insert list_insert app length lookup list_lookup].

Local Ltac one_step :=
  erewrite solo_step;
  [ | flatten; rewrite ?insert_last; reflexivity
    | flatten;
      match goal with
      | H : F _ _ = _ |- _ => rewrite ?H; flatten
      | _ => idtac
      end; reflexivity ].

Local Ltac call_done :=
  flatten; rewrite ?insert_last, lookup_last; repeat split; auto.


End Proofs.

(** * The theorems at work on the package's tests *)

Section Tests.

Import Demo.
Open Scope Z_scope.

(** TestFunc_ExecutesOnce: the first call returns 42; the second call
    returns 42 from the cache, and the producer has run once. *)
Lemma C1_witness :
  let s := after 0 always42 0%nat (call_success 0 background) in
  let s' := after 0 always42 0%nat (call_success 0 background ++ call_fast 1 background) in
  reachable 0 always42 0%nat s /\
  returned 0 background (Ret 42 None) s /\
  run 0 (call_fast 1 background) s = Some s' /\
  (value (d s') = value (d s) /\ calls s' = calls s).
Proof.
  intros s s'.
  assert (Hs : reachable 0 always42 0%nat s) by apply reachable_after.
  assert (Hret : returned 0 background (Ret 42 None) s) by (vm_compute; reflexivity).
  assert (Hrun : run 0 (call_fast 1 background) s = Some s') by (vm_compute; reflexivity).
  repeat (split; [assumption|]).
  destruct (C1_cached_after_success 0 always42 0%nat s _ s' Hs
              (or_intror (ex_intro _ 0%nat (ex_intro _ background (ex_intro _ 42 Hret))))
              Hrun) as (_ & _ & Hv & Hc & _).
  split; assumption.
Defined.


(** TestFunc_ContextCancellation: goroutine 0 is inside the producer and
    goroutine 1 waits at the select when its context is cancelled.  The
    select cannot take the semaphore; taking the context's case, the call
    returns [(0, context.Canceled)]. *)
Lemma C3_witness :
  let s := after 0 always42 0%nat cancelled_waiting in
  let s' := after 0 always42 0%nat (cancelled_waiting ++ [Act 1 TakeCtx; Act 1 TakeCtx]) in
  reachable 0 always42 0%nat s /\
  threads s !! 1%nat = Some {| ctx := cancellable; at_pc := L29 |} /\
  Err s cancellable = Some Canceled /\
  exec 0 (Act 1 TakeSem) s = None /\
  returned 1 cancellable (Ret 0 (Some Canceled)) s'.
Proof.
  intros s s'.
  assert (Hs : reachable 0 always42 0%nat s) by apply reachable_after.
  assert (Ht : threads s !! 1%nat = Some {| ctx := cancellable; at_pc := L29 |})
    by (vm_compute; reflexivity).
  assert (He : Err s cancellable = Some Canceled) by (vm_compute; reflexivity).
  repeat (split; [assumption|]).
  destruct (C3_context_case 0 always42 0%nat s 1%nat cancellable Canceled Hs Ht He)
    as (_ & Hsem & s1 & Hex & _ & _ & _ & _ & Hafter).
  split; [apply Hsem; vm_compute; reflexivity|].
  assert (Hrun : run 0 [Act 1 TakeCtx] s1 = Some s').
  { assert (Hs1 : Some s1 = exec 0 (Act 1 TakeCtx) s) by (symmetry; exact Hex).
    vm_compute in Hs1. inversion Hs1. vm_compute. reflexivity. }
  exact (proj1 (Hafter _ _ Hrun)).
Defined.

(** TestFunc_SemaphoreReleasedAfterError: goroutine 0 is on its way out
    of a call whose producer failed, at the deferred receive, while
    goroutine 1 waits at the select.  The receive runs and empties the
    channel as the call completes; goroutine 1 then takes the semaphore. *)
Lemma C4_witness :
  let sched := [Spawn background; Spawn background; Act 1%nat TakeSem]
               ++ solo 0 TakeSem 6 in
  let s := after 0 flaky 0%nat sched in
  let s2 := after 0 flaky 0%nat (sched ++ [Act 0%nat TakeSem]) in
  let leaving := Deferred (Ret 0 (Some errTemporary)) in
  reachable 0 flaky 0%nat s /\
  threads s !! 0%nat = Some {| ctx := background; at_pc := leaving |} /\
  holding leaving = true /\
  sem (d s) = 1%nat /\
  (exists s' p', exec 0 (Act 0 TakeSem) s = Some s' /\
     threads s' !! 0%nat = Some {| ctx := background; at_pc := p' |} /\
     (steps_left p' < steps_left leaving)%nat /\
     (holding p' = true /\ sem (d s') = 1%nat /\ log s' = log s
      \/ completed p' = true /\ sem (d s') = 0%nat /\
         log s' = EvRelease 0 :: log s /\
         exists r, leaving = Deferred r /\ p' = Done r)) /\
  exec 0 (Act 0 TakeSem) s = Some s2 /\
  reachable 0 flaky 0%nat s2 /\
  threads s2 !! 1%nat = Some {| ctx := background; at_pc := L29 |} /\
  sem (d s2) = 0%nat /\
  (exists s3, exec 0 (Act 1 TakeSem) s2 = Some s3 /\
     threads s3 !! 1%nat = Some {| ctx := background; at_pc := L38 |} /\
     sem (d s3) = 1%nat).
Proof.
  intros sched s s2 leaving.
  assert (Hs : reachable 0 flaky 0%nat s) by apply reachable_after.
  assert (Ht : threads s !! 0%nat = Some {| ctx := background; at_pc := leaving |})
    by (vm_compute; reflexivity).
  assert (Hh : holding leaving = true) by reflexivity.
  assert (Hsem : sem (d s) = 1%nat) by (vm_compute; reflexivity).
  assert (Hex : exec 0 (Act 0 TakeSem) s = Some s2) by (vm_compute; reflexivity).
  assert (Hs2 : reachable 0 flaky 0%nat s2) by apply reachable_after.
  assert (Ht2 : threads s2 !! 1%nat = Some {| ctx := background; at_pc := L29 |})
    by (vm_compute; reflexivity).
  assert (Hsem2 : sem (d s2) = 0%nat) by (vm_compute; reflexivity).
  repeat (split; [assumption|]).
  split.
  { exact (proj1 (proj2 (C4_gate_released 0 flaky 0%nat s Hs))
             0%nat background leaving TakeSem Ht Hh). }
  repeat (split; [assumption|]).
  exact (proj2 (proj2 (C4_gate_released 0 flaky 0%nat s2 Hs2))
           1%nat background Ht2 Hsem2).
Defined.

(** TestFunc_ConcurrentCalls: goroutine 1 takes the semaphore after
    goroutine 0 has published 42; three operations later it has returned
    42 without a call of the producer. *)
Lemma C5_witness :
  let s := after 0 always42 0%nat contended in
  let s1 := after 0 always42 0%nat (contended ++ [Act 1 TakeSem]) in
  let s' := after 0 always42 0%nat (contended ++ [Act 1 TakeSem] ++ solo 1 TakeSem 3) in
  reachable 0 always42 0%nat s /\
  threads s !! 1%nat = Some {| ctx := background; at_pc := L29 |} /\
  exec 0 (Act 1 TakeSem) s = Some s1 /\
  done (d s1) = true /\
  run 0 (solo 1 TakeSem 3) s1 = Some s' /\
  (returned 1 background (Ret 42 None) s' /\ calls s' = calls s1).
Proof.
  intros s s1 s'.
  assert (Hs : reachable 0 always42 0%nat s) by apply reachable_after.
  assert (Ht : threads s !! 1%nat = Some {| ctx := background; at_pc := L29 |})
    by (vm_compute; reflexivity).
  assert (Hex : exec 0 (Act 1 TakeSem) s = Some s1) by (vm_compute; reflexivity).
  assert (Hd : done (d s1) = true) by (vm_compute; reflexivity).
  assert (Hrun : run 0 (solo 1 TakeSem 3) s1 = Some s') by (vm_compute; reflexivity).
  repeat (split; [assumption|]).
  destruct (C5_recheck_returns_cached 0 always42 0%nat s 1%nat background s1 _ s'
              Hs Ht Hex Hd Hrun) as (_ & _ & Hpath & _).
  destruct Hpath as (Hret & _ & _ & _ & Hc & _).
  split; [exact Hret | exact Hc].
Defined.


(** A call made after the first one has returned never touches the
    semaphore, and from line 26 it returns the cached value. *)
Lemma C7_witness :
  let s := after 0 always42 0%nat (call_success 0 background) in
  let s' := after 0 always42 0%nat
              (call_success 0 background ++ [Spawn background; Act 1%nat TakeSem]) in
  let th := {| ctx := background; at_pc := L26 |} in
  reachable 0 always42 0%nat s /\
  done (d s) = true /\
  run 0 [Spawn background; Act 1%nat TakeSem] s = Some s' /\
  (length (threads s) <= 1)%nat /\
  threads s' !! 1%nat = Some th /\
  value (d s) = 42 /\
  (forall e, In e (log s') -> (event_thread e < length (threads s))%nat) /\
  exists s1, exec 0 (Act 1 TakeSem) s' = Some s1 /\
    d s1 = d s' /\ log s1 = log s' /\
    threads s1 !! 1%nat
    = Some {| ctx := background; at_pc := Done (Ret (value (d s)) None) |}.
Proof.
  intros s s' th.
  assert (Hs : reachable 0 always42 0%nat s) by apply reachable_after.
  assert (Hd : done (d s) = true) by (vm_compute; reflexivity).
  assert (Hrun : run 0 [Spawn background; Act 1%nat TakeSem] s = Some s')
    by (vm_compute; reflexivity).
  assert (Hn : (length (threads s) <= 1)%nat) by (vm_compute; lia).
  assert (Hth : threads s' !! 1%nat = Some th) by (vm_compute; reflexivity).
  assert (Hv : value (d s) = 42) by (vm_compute; reflexivity).
  repeat (split; [assumption|]).
  destruct (C7_later_calls_skip_the_gate 0 always42 0%nat s _ s' Hs Hd Hrun)
    as (_ & Hlog & _ & Hlater).
  split; [exact Hlog|].
  destruct (Hlater 1%nat th Hn Hth) as [Hdone | [_ Hstep]].
  - discriminate Hdone.
  - destruct (Hstep TakeSem) as (s1 & Hex & Hd1 & Hl1 & _ & Ht1).
    exists s1. repeat split; assumption.
Defined.

(** TestFunc_ZeroValueOnError: the producer returns 999 with its error;
    the accessor returns 0 with it. *)
Lemma C8_witness :
  let s := after 0 failing 0%nat (call_failure 0 background) in
  reachable 0 failing 0%nat s /\
  results s = [Ret 999 (Some errFail)] /\
  exists v, returned 0 background (Ret v (Some errFail)) s /\ v = 0.
Proof.
  intros s.
  assert (Hs : reachable 0 failing 0%nat s) by apply reachable_after.
  split; [assumption|]. split; [vm_compute; reflexivity|].
  assert (Hret : {v | returned 0 background (Ret v (Some errFail)) s}).
  { eexists. vm_compute. reflexivity. }
  destruct Hret as [v Hret]. exists v. split; [assumption|].
  exact (C8_zero_value_on_error 0 failing 0%nat s 0%nat background v errFail Hs Hret).
Defined.

(** TestFunc_PropagatesContextToFunction, after another goroutine has
    called the accessor with a plain context: the producer called by the
    second goroutine finds the marker of that goroutine's own context. *)
Lemma C9_witness :
  let s := after ""%string echo 0%nat [Spawn background; Act 0%nat TakeSem] in
  let s1 := after ""%string echo 0%nat
              [Spawn background; Act 0%nat TakeSem; Spawn marked] in
  let s' := after ""%string echo 0%nat
              ([Spawn background; Act 0%nat TakeSem; Spawn marked]
               ++ solo 1 TakeSem 4) in
  reachable ""%string echo 0%nat s /\
  exec ""%string (Spawn marked) s = Some s1 /\
  run ""%string (solo 1 TakeSem 4) s1 = Some s' /\
  threads s' !! length (threads s) = Some {| ctx := marked; at_pc := InF echo |} /\
  snd (echo marked (pstate s')) = Ret "hello"%string None /\
  snd (echo background (pstate s')) = Ret ""%string (Some errNoValue) /\
  exists s2, exec ""%string (Act (length (threads s)) TakeSem) s' = Some s2 /\
    results s2 = snd (echo marked (pstate s')) :: results s'.
Proof.
  intros s s1 s'.
  assert (Hs : reachable ""%string echo 0%nat s) by apply reachable_after.
  assert (Hex : exec ""%string (Spawn marked) s = Some s1) by (vm_compute; reflexivity).
  assert (Hrun : run ""%string (solo 1 TakeSem 4) s1 = Some s')
    by (vm_compute; reflexivity).
  assert (Ht : threads s' !! length (threads s)
               = Some {| ctx := marked; at_pc := InF echo |})
    by (vm_compute; reflexivity).
  repeat (split; [assumption|]).
  split; [vm_compute; reflexivity|]. split; [vm_compute; reflexivity|].
  destruct (C9_context_propagated ""%string echo 0%nat s marked s1 _ s' Hs Hex Hrun)
    as (p & Htp & _ & _ & Hin).
  assert (Hp : p = InF echo) by congruence.
  destruct (Hin echo Hp TakeSem) as (s2 & Hex2 & _ & _ & Hres).
  exists s2. split; assumption.
Defined.

(** After the first success [d.f] is nil, and no call has called it. *)
Lemma C10_witness :
  let s := after 0 always42 0%nat (call_success 0 background ++ call_fast 1 background) in
  reachable 0 always42 0%nat s /\
  f (d s) = None /\
  done (d s) = true /\
  forall t, ~ In (EvNilCall t) (log s).
Proof.
  intros s.
  assert (Hs : reachable 0 always42 0%nat s) by apply reachable_after.
  assert (Hf : f (d s) = None) by (vm_compute; reflexivity).
  destruct (C10_nil_never_called 0 always42 0%nat s Hs) as (Hlog & _ & _ & Hdone).
  repeat (split; [assumption|]). split; [exact (Hdone Hf) | exact Hlog].
Defined.

(** ** Where the code departs from the specification *)


(** C3 as stated fails.  The context is cancelled before the call starts
    and the semaphore is free: the select may take the semaphore, and
    then the call runs the producer and returns [(42, nil)]. *)
Lemma C3_counterexample :
  ~ (forall s t c e acts s' r,
       reachable 0 always42 0%nat s ->
       threads s !! t = Some {| ctx := c; at_pc := L29 |} ->
       done (d s) = false ->
       Err s c = Some e ->
       run 0 acts s = Some s' ->
       returned t c r s' ->
       r = Ret 0 (Some e) /\ calls s' = calls s).
Proof.
  intros H.
  pose (s := after 0 always42 0%nat [Cancel 1 ByCancel; Spawn cancellable; Act 0 TakeSem]).
  pose (s' := after 0 always42 0%nat cancelled_first).
  assert (Hs : reachable 0 always42 0%nat s) by apply reachable_after.
  assert (Ht : threads s !! 0%nat = Some {| ctx := cancellable; at_pc := L29 |})
    by (vm_compute; reflexivity).
  assert (Hd : done (d s) = false) by (vm_compute; reflexivity).
  assert (He : Err s cancellable = Some Canceled) by (vm_compute; reflexivity).
  assert (Hrun : run 0 (solo 0 TakeSem 10) s = Some s') by (vm_compute; reflexivity).
  assert (Hret : returned 0 cancellable (Ret 42 None) s') by (vm_compute; reflexivity).
  destruct (H s 0%nat cancellable Canceled _ s' _ Hs Ht Hd He Hrun Hret) as [Hr _].
  discriminate Hr.
Qed.

(** C7 as stated fails.  Goroutine 1 found [done] unset and waits at the
    select while goroutine 0 publishes the value; it takes the semaphore
    after [done] is set. *)
Lemma C7_counterexample :
  ~ (forall s acts s' t,
       reachable 0 always42 0%nat s ->
       done (d s) = true ->
       run 0 acts s = Some s' ->
       In (EvAcquire t) (log s') -> In (EvAcquire t) (log s)).
Proof.
  intros H.
  pose (s := after 0 always42 0%nat contended).
  pose (s' := after 0 always42 0%nat (contended ++ [Act 1 TakeSem])).
  assert (Hs : reachable 0 always42 0%nat s) by apply reachable_after.
  assert (Hd : done (d s) = true) by (vm_compute; reflexivity).
  assert (Hrun : run 0 [Act 1 TakeSem] s = Some s') by (vm_compute; reflexivity).
  assert (Hin : In (EvAcquire 1) (log s')) by (vm_compute; auto).
  pose proof (H s _ s' 1%nat Hs Hd Hrun Hin) as Hold.
  vm_compute in Hold. intuition discriminate.
Qed.

Close Scope Z_scope.

End Tests.

(** * The further guarantees at work on the package's tests *)

Section MoreTests.

Import Demo.
Open Scope Z_scope.

(** While goroutine 0 is inside the producer, one call is on record that
    has not ended. *)
Lemma one_producer_at_a_time_witness :
  let s := after 0 always42 0%nat cancelled_waiting in
  reachable 0 always42 0%nat s /\
  (exists t c g, threads s !! t = Some {| ctx := c; at_pc := InF g |}) /\
  length (calls s) = S (length (results s)).
Proof.
  intros s.
  assert (Hs : reachable 0 always42 0%nat s) by apply reachable_after.
  assert (Hin : exists t c g, threads s !! t = Some {| ctx := c; at_pc := InF g |}).
  { exists 0%nat, background, always42. vm_compute. reflexivity. }
  repeat (split; [assumption|]).
  destruct (one_producer_at_a_time 0 always42 0%nat s Hs) as (_ & _ & _ & Hiff).
  exact (proj2 Hiff Hin).
Defined.

(** Goroutine 0 is about to write [d.value] while goroutine 1 waits at
    the select. *)
Lemma plain_fields_never_race_witness :
  let s := after 0 always42 0%nat
             ([Spawn background; Spawn background; Act 1%nat TakeSem]
              ++ solo 0 TakeSem 6) in
  let th0 := {| ctx := background; at_pc := L48 42 |} in
  let th1 := {| ctx := background; at_pc := L29 |} in
  reachable 0 always42 0%nat s /\
  0%nat <> 1%nat /\
  threads s !! 0%nat = Some th0 /\
  threads s !! 1%nat = Some th1 /\
  writes (at_pc th0) = Some FieldValue /\
  (reads (at_pc th1) <> Some FieldValue /\ writes (at_pc th1) <> Some FieldValue).
Proof.
  intros s th0 th1.
  assert (Hs : reachable 0 always42 0%nat s) by apply reachable_after.
  assert (Hne : 0%nat <> 1%nat) by lia.
  assert (H0 : threads s !! 0%nat = Some th0) by (vm_compute; reflexivity).
  assert (H1 : threads s !! 1%nat = Some th1) by (vm_compute; reflexivity).
  assert (Hw : writes (at_pc th0) = Some FieldValue) by reflexivity.
  repeat (split; [assumption|]).
  exact (plain_fields_never_race 0 always42 0%nat s 0%nat 1%nat th0 th1 FieldValue
           Hs Hne H0 H1 Hw).
Defined.

(** TestFunc_ConcurrentCalls: both goroutines have returned 42. *)
Lemma successful_returns_agree_witness :
  let s := after 0 always42 0%nat (contended ++ solo 1 TakeSem 4) in
  reachable 0 always42 0%nat s /\
  returned 0 background (Ret 42 None) s /\
  returned 1 background (Ret 42 None) s /\
  value (d s) = 42.
Proof.
  intros s.
  assert (Hs : reachable 0 always42 0%nat s) by apply reachable_after.
  assert (H0 : returned 0 background (Ret 42 None) s) by (vm_compute; reflexivity).
  assert (H1 : returned 1 background (Ret 42 None) s) by (vm_compute; reflexivity).
  repeat (split; [assumption|]).
  exact (proj1 (proj2 (successful_returns_agree 0 always42 0%nat s _ _ _ _ _ _ Hs H0 H1))).
Defined.

(** TestFunc_ErrorAllowsRetry: of the two results on record, the success
    is the newest. *)
Lemma producer_succeeds_at_most_once_witness :
  let s := after 0 flaky 0%nat (call_failure 0 background ++ call_success 1 background) in
  reachable 0 flaky 0%nat s /\
  length (results s) = 2%nat /\
  results s !! 0%nat = Some (Ret 100 None) /\
  (0%nat = 0%nat /\ 0%nat = 0%nat /\ 100 = 100).
Proof.
  intros s.
  assert (Hs : reachable 0 flaky 0%nat s) by apply reachable_after.
  assert (H0 : results s !! 0%nat = Some (Ret 100 None)) by (vm_compute; reflexivity).
  split; [assumption|]. split; [vm_compute; reflexivity|]. split; [assumption|].
  exact (producer_succeeds_at_most_once 0 flaky 0%nat s 0 0 100 100 Hs H0 H0).
Defined.

(** TestFunc_ContextCancellation: the error returned to goroutine 1 is
    the one its context reports. *)
Lemma outcomes_have_an_origin_witness :
  let s := after 0 always42 0%nat (cancelled_waiting ++ [Act 1 TakeCtx; Act 1 TakeCtx]) in
  reachable 0 always42 0%nat s /\
  returned 1 cancellable (Ret 0 (Some Canceled)) s /\
  (0 = 0 /\
   (Err s cancellable = Some Canceled \/
    exists v', In (Ret v' (Some Canceled)) (results s))).
Proof.
  intros s.
  assert (Hs : reachable 0 always42 0%nat s) by apply reachable_after.
  assert (Hr : returned 1 cancellable (Ret 0 (Some Canceled)) s)
    by (vm_compute; reflexivity).
  repeat (split; [assumption|]).
  exact (outcomes_have_an_origin 0 always42 0%nat s _ _ _ Hs Hr).
Defined.

(** TestFunc_ErrorAllowsRetry: the call that failed called the producer
    once; the call that retried called it once. *)
Lemma producer_called_once_per_call_witness :
  let s := after 0 flaky 0%nat (call_failure 0 background ++ call_success 1 background) in
  reachable 0 flaky 0%nat s /\
  threads s !! 1%nat = Some {| ctx := background; at_pc := Done (Ret 100 None) |} /\
  length (calls s) = 2%nat /\
  (called 1 (calls s) <= 1)%nat.
Proof.
  intros s.
  assert (Hs : reachable 0 flaky 0%nat s) by apply reachable_after.
  assert (Ht : threads s !! 1%nat
               = Some {| ctx := background; at_pc := Done (Ret 100 None) |})
    by (vm_compute; reflexivity).
  split; [assumption|]. split; [assumption|]. split; [vm_compute; reflexivity|].
  exact (proj1 (producer_called_once_per_call 0 flaky 0%nat s _ _ Hs Ht)).
Defined.

(** TestFunc_SemaphoreReleasedAfterError: the call that failed has
    received from the semaphore as often as it has sent. *)
Lemma semaphore_balanced_per_call_witness :
  let s := after 0 flaky 0%nat (call_failure 0 background) in
  let th := {| ctx := background; at_pc := Done (Ret 0 (Some errTemporary)) |} in
  reachable 0 flaky 0%nat s /\
  threads s !! 0%nat = Some th /\
  released 0 (log s) = acquired 0 (log s).
Proof.
  intros s th.
  assert (Hs : reachable 0 flaky 0%nat s) by apply reachable_after.
  assert (Ht : threads s !! 0%nat = Some th) by (vm_compute; reflexivity).
  repeat (split; [assumption|]).
  destruct (semaphore_balanced_per_call 0 flaky 0%nat s _ _ Hs Ht) as (_ & _ & Hc & _).
  apply Hc. reflexivity.
Defined.

(** TestFunc_ConcurrentCalls: two goroutines, one call of the producer. *)
Lemma never_failing_producer_runs_once_witness :
  let s := after 0 always42 0%nat (contended ++ solo 1 TakeSem 4) in
  never_fails always42 /\
  reachable 0 always42 0%nat s /\
  (length (calls s) <= 1)%nat.
Proof.
  intros s.
  assert (HF : never_fails always42) by (intros c p; reflexivity).
  assert (Hs : reachable 0 always42 0%nat s) by apply reachable_after.
  repeat (split; [assumption|]).
  exact (proj1 (never_failing_producer_runs_once 0 always42 0%nat s HF Hs)).
Defined.

(** TestFunc_ContextCancellation: goroutine 1 waits at the select while
    goroutine 0 is inside the producer; there is a schedule that brings
    its call to an end. *)
Lemma every_call_can_complete_witness :
  let s := after 0 always42 0%nat cancelled_waiting in
  let th := {| ctx := cancellable; at_pc := L29 |} in
  reachable 0 always42 0%nat s /\
  threads s !! 1%nat = Some th /\
  exists h k1 k2 s' r,
    (k1 <= 9)%nat /\ (k2 <= 11)%nat /\
    run 0 (solo h TakeSem k1 ++ solo 1 TakeSem k2) s = Some s' /\
    returned 1 (ctx th) r s'.
Proof.
  intros s th.
  assert (Hs : reachable 0 always42 0%nat s) by apply reachable_after.
  assert (Ht : threads s !! 1%nat = Some th) by (vm_compute; reflexivity).
  repeat (split; [assumption|]).
  exact (every_call_can_complete 0 always42 0%nat s 1%nat th Hs Ht).
Defined.

(** Goroutine 1 waits at the select with a live context while goroutine 0
    is inside the producer: it is blocked. *)
Lemma blocks_only_at_select_witness :
  let s := after 0 always42 0%nat
             ([Spawn background] ++ solo 0 TakeSem 4
              ++ [Spawn background; Act 1%nat TakeSem]) in
  reachable 0 always42 0%nat s /\
  threads s !! 1%nat = Some {| ctx := background; at_pc := L29 |} /\
  forall ch, exec 0 (Act 1 ch) s = None.
Proof.
  intros s.
  assert (Hs : reachable 0 always42 0%nat s) by apply reachable_after.
  assert (Ht : threads s !! 1%nat = Some {| ctx := background; at_pc := L29 |})
    by (vm_compute; reflexivity).
  repeat (split; [assumption|]).
  apply (proj2 (blocks_only_at_select 0 always42 0%nat s 1%nat background L29 Hs Ht)).
  right. split; [reflexivity|]. split; vm_compute; reflexivity.
Defined.

(** A producer that panics: two operations later the panic has reached
    the caller. *)
Lemma producer_panic_releases_witness :
  let s := after 0 panicking 0%nat (Spawn background :: solo 0 TakeSem 4) in
  let s' := after 0 panicking 0%nat (Spawn background :: solo 0 TakeSem 6) in
  reachable 0 panicking 0%nat s /\
  threads s !! 0%nat = Some {| ctx := background; at_pc := InF panicking |} /\
  panicking background (pstate s) = (1%nat, Panic) /\
  run 0 (solo 0 TakeSem 2) s = Some s' /\
  returned 0 background Panic s'.
Proof.
  intros s s'.
  assert (Hs : reachable 0 panicking 0%nat s) by apply reachable_after.
  assert (Ht : threads s !! 0%nat
               = Some {| ctx := background; at_pc := InF panicking |})
    by (vm_compute; reflexivity).
  assert (Hg : panicking background (pstate s) = (1%nat, Panic))
    by (vm_compute; reflexivity).
  assert (Hrun : run 0 (solo 0 TakeSem 2) s = Some s') by (vm_compute; reflexivity).
  repeat (split; [assumption|]).
  exact (proj1 (producer_panic_releases 0 panicking 0%nat s _ _ _ _ _ s' Hs Ht Hg Hrun)).
Defined.


Close Scope Z_scope.

End MoreTests.
